(** * Lumina sales agent: ingestion, hybrid retrieval and chat sessions

    A shallow embedding of [backend/ingestion.py], [backend/vector_store.py]
    and [backend/app.py], and the properties of the chunker, the tenant
    filter, the ingestion pipeline and the per-session state machine.

    Python [str] values that the code takes apart (split, strip, slice,
    regular expression) are lists of characters; the characters are the
    code points below 256.  Identifiers and table columns that the code
    only stores or compares are [string]s.  Python [int]s are [Z]. *)

From Stdlib Require Import ZArith List Ascii String Bool Lia.
From stdpp Require Import gmap strings list fin_maps pretty.

Local Open Scope Z_scope.
Local Open Scope list_scope.

(** ** Python values *)

Abbreviation text := (list ascii).

Definition T (s : string) : text := list_ascii_of_string s.
Definition S_ (t : text) : string := string_of_list_ascii t.

Definition len {A} (l : list A) : Z := Z.of_nat (length l).

Inductive exn : Type :=
  | ValueError (msg : string)
  | KeyError (key : string)
  | ServiceError (msg : string).

Inductive result (A : Type) : Type :=
  | Ok (a : A)
  | Raise (e : exn).
Arguments Ok {A} a.
Arguments Raise {A} e.

(** Exceptions propagate through sequenced calls. *)
#[global] Instance result_ret : MRet result := fun _ a => Ok a.
#[global] Instance result_bind : MBind result := fun _ _ k r =>
  match r with
  | Ok a => k a
  | Raise e => Raise e
  end.

Definition NL : ascii := "010"%char.

(** [str.isspace] on one character: TAB..CR, FS..US, space, NEL, NBSP. *)
Definition is_space (c : ascii) : bool :=
  let n := Z.of_nat (nat_of_ascii c) in
  ((9 <=? n) && (n <=? 13)) || ((28 <=? n) && (n <=? 32))
  || (n =? 133) || (n =? 160).

Fixpoint lstrip (t : text) : text :=
  match t with
  | c :: t' => if is_space c then lstrip t' else t
  | [] => []
  end.

Definition rstrip (t : text) : text := rev (lstrip (rev t)).

(** [str.strip()] *)
Definition strip (t : text) : text := rstrip (lstrip t).

Fixpoint starts_with (p t : text) : bool :=
  match p, t with
  | [], _ => true
  | a :: p', b :: t' => bool_decide (a = b) && starts_with p' t'
  | _ :: _, [] => false
  end.

(** The scan of [str.split(sep)] for a non-empty [sep]: occurrences are
    taken leftmost first and do not overlap.  [acc] is the piece being
    read, reversed; every step consumes at least one character, so the
    length of the text is fuel enough. *)
Fixpoint split_scan (fuel : nat) (sep acc t : text) : list text :=
  match fuel with
  | O => [rev acc]
  | S fuel' =>
      match t with
      | [] => [rev acc]
      | c :: t' =>
          if starts_with sep t
          then rev acc :: split_scan fuel' sep [] (skipn (length sep) t)
          else split_scan fuel' sep (c :: acc) t'
      end
  end.

(** [str.split(sep)]: an empty separator is a [ValueError]. *)
Definition py_split (t sep : text) : result (list text) :=
  match sep with
  | [] => Raise (ValueError "empty separator")
  | _ :: _ => Ok (split_scan (length t) sep [] t)
  end.

(** [sep.join(pieces)] *)
Fixpoint py_join (sep : text) (pieces : list text) : text :=
  match pieces with
  | [] => []
  | [p] => p
  | p :: ps => p ++ sep ++ py_join sep ps
  end.

(** [t[i:j]] with Python's treatment of negative and oversized bounds. *)
Definition slice_bound (n k : Z) : Z :=
  if k <? 0 then Z.max 0 (k + n) else Z.min k n.

Definition py_slice (t : text) (i j : Z) : text :=
  let a := slice_bound (len t) i in
  let b := slice_bound (len t) j in
  firstn (Z.to_nat (b - a)) (skipn (Z.to_nat a) t).

(** [range(start, stop, step)] as the list of its elements. *)
Definition range_len (start stop step : Z) : Z :=
  if 0 <? step
  then (if start <? stop then (stop - start - 1) / step + 1 else 0)
  else (if stop <? start then (start - stop - 1) / (- step) + 1 else 0).

Definition py_range (start stop step : Z) : result (list Z) :=
  if step =? 0 then Raise (ValueError "range() arg 3 must not be zero")
  else Ok (map (fun k => start + Z.of_nat k * step)
             (seq 0 (Z.to_nat (range_len start stop step)))).

(** ** ingestion.py: the chunker *)

Module Chunker.

Definition separators : list text := [[NL; NL]; [NL]; T ". "; T " "; T ""].

Section SplitText.
(** [split_text] is a closure over the arguments of
    [recursive_chunk_text]. *)
Variables chunk_size overlap : Z.

(** [split + separator if separator not in ["\n\n", "\n"] else split] *)
Definition next_piece (separator split : text) : text :=
  if bool_decide (separator ∈ [[NL; NL]; [NL]]) then split
  else split ++ separator.

(** [if current_chunk: final_chunks.append(current_chunk.strip())] *)
Definition flush (final_chunks : list text) (current_chunk : text)
  : list text :=
  match current_chunk with
  | [] => final_chunks
  | _ :: _ => final_chunks ++ [strip current_chunk]
  end.

(** One iteration of [for split in splits]; the state is
    [(final_chunks, current_chunk)]. *)
Definition accumulate (separator : text) (st : list text * text)
    (split : text) : list text * text :=
  let '(final_chunks, current_chunk) := st in
  let piece := next_piece separator split in
  if len current_chunk + len piece >? chunk_size
  then (flush final_chunks current_chunk, piece)
  else (final_chunks, current_chunk ++ piece).

(** [final_chunks] after the loop and the last flush. *)
Definition greedy_chunks (separator : text) (splits : list text)
  : list text :=
  let '(final_chunks, current_chunk) :=
    fold_left (accumulate separator) splits ([], []) in
  flush final_chunks current_chunk.

(** The no-separator branch:
    [[text[i:i+chunk_size] for i in range(0, len(text), chunk_size - overlap)]] *)
Definition hard_split (t : text) : result (list text) :=
  idxs ← py_range 0 (len t) (chunk_size - overlap);
  Ok (map (fun i => py_slice t i (i + chunk_size)) idxs).

(** The loop over [final_chunks] that fills [validated_chunks]; [recurse]
    is [split_text] on [separators[1:]]. *)
Fixpoint validate (recurse : text -> result (list text))
    (final_chunks validated_chunks : list text) : result (list text) :=
  match final_chunks with
  | [] => Ok validated_chunks
  | chunk :: more =>
      if len chunk >? chunk_size
      then sub ← recurse chunk;
           validate recurse more (validated_chunks ++ sub)
      else validate recurse more (validated_chunks ++ [chunk])
  end.

Fixpoint split_text (separators : list text) (t : text)
  : result (list text) :=
  if len t <=? chunk_size then Ok [t]
  else
    match separators with
    | [] => hard_split t
    | separator :: rest =>
        splits ← py_split t separator;
        validate (split_text rest) (greedy_chunks separator splits) []
    end.

(** The same function as Python runs it: general recursion on
    [separators[1:]], here with a bound on the depth of the call stack.
    [None] is an exhausted bound. *)
Fixpoint validate_depth (recurse : text -> option (result (list text)))
    (final_chunks validated_chunks : list text)
  : option (result (list text)) :=
  match final_chunks with
  | [] => Some (Ok validated_chunks)
  | chunk :: more =>
      if len chunk >? chunk_size
      then match recurse chunk with
           | None => None
           | Some (Raise e) => Some (Raise e)
           | Some (Ok sub) =>
               validate_depth recurse more (validated_chunks ++ sub)
           end
      else validate_depth recurse more (validated_chunks ++ [chunk])
  end.

Fixpoint split_text_depth (depth : nat) (separators : list text)
    (t : text) : option (result (list text)) :=
  match depth with
  | O => None
  | S depth' =>
      if len t <=? chunk_size then Some (Ok [t])
      else
        match separators with
        | [] => Some (hard_split t)
        | separator :: _ =>
            match py_split t separator with
            | Raise e => Some (Raise e)
            | Ok splits =>
                validate_depth (split_text_depth depth' (tl separators))
                  (greedy_chunks separator splits) []
            end
        end
  end.

End SplitText.

Definition recursive_chunk_text (t : text) (chunk_size overlap : Z)
  : result (list text) :=
  split_text chunk_size overlap separators t.

Definition default_chunk_size : Z := 500.
Definition default_overlap : Z := 50.

(** Separator normalization: the characters the separators are made of
    (white space and the full stop) are erased. *)
Definition separator_char (c : ascii) : bool :=
  is_space c || bool_decide (c = "."%char).

Definition normalize (t : text) : text :=
  List.filter (fun c => negb (separator_char c)) t.

(** The characters of a text that are not white space. *)
Definition visible (t : text) : text :=
  List.filter (fun c => negb (is_space c)) t.

End Chunker.

Import Chunker.


(** ** vector_store.py: the Pinecone client *)

Module VectorStore.

(** Metadata values as the code writes them: strings and chunk indices. *)
Inductive meta_value : Type :=
  | MStr (s : string)
  | MInt (n : Z).

#[global] Instance meta_value_eq_dec : EqDecision meta_value.
Proof. solve_decision. Defined.

Abbreviation metadata := (gmap string meta_value).

(** A metadata filter: [{"client_id": {"$eq": client_id}}]. *)
Inductive condition : Type :=
  | CEq (v : meta_value).

Abbreviation meta_filter := (gmap string condition).

Definition holds (c : condition) (v : option meta_value) : Prop :=
  match c with
  | CEq w => v = Some w
  end.

(** A record passes a filter when every key of the filter has its
    condition met by the record's metadata. *)
Definition passes (f : meta_filter) (m : metadata) : Prop :=
  ∀ k c, f !! k = Some c → holds c (m !! k).

Section Client.
(** [dense] is a list of floats, [sparse] the BM25 dictionary, [score] a
    float; [truthy] is Python's truth value of the sparse dictionary. *)
Variables dense sparse score : Type.
Variable truthy : sparse -> bool.

(** An element of [vectors]: a dictionary whose keys may be missing. *)
Record vector : Type := {
  v_id : option string;
  v_values : option dense;
  v_sparse_values : option sparse;
  v_metadata : option metadata
}.

(** What [upsert] hands to the index. *)
Record formatted_vector : Type := {
  f_id : string;
  f_values : dense;
  f_metadata : metadata;
  f_sparse_values : option sparse
}.

Record query_args : Type := {
  q_vector : dense;
  q_top_k : Z;
  q_include_metadata : bool;
  q_filter : meta_filter;
  q_sparse_vector : option sparse
}.

(** An element of [results.matches], and of the list [search] returns. *)
Record scored : Type := {
  m_id : string;
  m_score : score;
  m_metadata : metadata
}.

(** The Pinecone index is a remote service: its state and its two calls
    are parameters.  [index_upsert] gives the state after the call and
    whether the call raised. *)
Variable index : Type.
Variable index_upsert :
  list formatted_vector -> index -> index * option exn.
Variable index_query : query_args -> index -> result (list scored).

(** [vec[key]] *)
Definition item {A} (key : string) (field : option A) : result A :=
  match field with
  | Some a => Ok a
  | None => Raise (KeyError key)
  end.

(** The body of [for vec in vectors]. *)
Definition format_vector (client_id : string) (vec : vector)
  : result formatted_vector :=
  let metadata := default ∅ (v_metadata vec) in
  let metadata :=
    match metadata !! "client_id"%string with
    | None => <["client_id"%string := MStr client_id]> metadata
    | Some _ => metadata
    end in
  id ← item "id" (v_id vec);
  values ← item "values" (v_values vec);
  Ok {| f_id := id; f_values := values; f_metadata := metadata;
        f_sparse_values := v_sparse_values vec |}.

Fixpoint format_vectors (client_id : string) (vectors : list vector)
  : result (list formatted_vector) :=
  match vectors with
  | [] => Ok []
  | vec :: more =>
      fv ← format_vector client_id vec;
      fvs ← format_vectors client_id more;
      Ok (fv :: fvs)
  end.

(** [upsert]: the number of vectors stored, 0 when anything raised. *)
Definition upsert (vectors : list vector) (client_id : string)
    (idx : index) : Z * index :=
  match format_vectors client_id vectors with
  | Raise _ => (0, idx)
  | Ok formatted_vectors =>
      match index_upsert formatted_vectors idx with
      | (idx', None) => (len formatted_vectors, idx')
      | (idx', Some _) => (0, idx')
      end
  end.

(** The query [search] issues. *)
Definition search_query (query_vector : dense)
    (sparse_vector : option sparse) (top_k : Z) (client_id : string)
  : query_args :=
  {| q_vector := query_vector;
     q_top_k := top_k;
     q_include_metadata := true;
     q_filter := {[ "client_id"%string := CEq (MStr client_id) ]};
     q_sparse_vector :=
       match sparse_vector with
       | Some sv => if truthy sv then Some sv else None
       | None => None
       end |}.

(** [search]: the matches of the index, or [[]] when the query raised. *)
Definition search (query_vector : dense) (sparse_vector : option sparse)
    (top_k : Z) (client_id : string) (idx : index) : list scored :=
  match index_query
          (search_query query_vector sparse_vector top_k client_id) idx
  with
  | Ok matches =>
      map (fun m => {| m_id := m_id m; m_score := m_score m;
                       m_metadata := m_metadata m |}) matches
  | Raise _ => []
  end.

End Client.

Arguments v_id {dense sparse} _.
Arguments v_values {dense sparse} _.
Arguments v_sparse_values {dense sparse} _.
Arguments v_metadata {dense sparse} _.
Arguments f_id {dense sparse} _.
Arguments f_values {dense sparse} _.
Arguments f_metadata {dense sparse} _.
Arguments f_sparse_values {dense sparse} _.
Arguments q_vector {dense sparse} _.
Arguments q_top_k {dense sparse} _.
Arguments q_include_metadata {dense sparse} _.
Arguments q_filter {dense sparse} _.
Arguments q_sparse_vector {dense sparse} _.
Arguments m_id {score} _.
Arguments m_score {score} _.
Arguments m_metadata {score} _.

End VectorStore.

(** ** ingestion.py: the pipeline *)

Module Ingestion.
Import VectorStore.

(** [str(e)] *)
Definition exn_message (e : exn) : string :=
  match e with
  | ValueError msg => msg
  | KeyError key => "'" +:+ key +:+ "'"
  | ServiceError msg => msg
  end.

Record ingest_result : Type := {
  success : bool;
  message : string;
  url : string;
  chunks : option Z;
  stored : option Z
}.

Definition failure (msg url : string) : ingest_result :=
  {| success := false; message := msg; url := url;
     chunks := None; stored := None |}.

Section Pipeline.
Variables dense sparse : Type.
Variable index : Type.
Variable index_upsert :
  list (formatted_vector dense sparse) -> index -> index * option exn.

(** The calls that leave the process.  Each catches its own exceptions:
    [fetch_url] gives [None], [extract_text] the empty text,
    [get_embeddings] the empty list. *)
Variable fetch_url : string -> option text.
Variable extract_text : text -> text.
Variable get_embeddings : list text -> list dense.
Variable get_sparse_vector : text -> sparse.

(** [enumerate(zip(chunks, embeddings))], from index [i]. *)
Fixpoint vectors_to_store (url client_id : string) (i : nat)
    (chunks : list text) (embeddings : list dense)
  : list (vector dense sparse) :=
  match chunks, embeddings with
  | chunk :: chunks', embedding :: embeddings' =>
      {| v_id := Some (url +:+ "_" +:+ pretty i);
         v_values := Some embedding;
         v_sparse_values := Some (get_sparse_vector chunk);
         v_metadata := Some
           (<["client_id"%string := MStr client_id]>
            (<["url"%string := MStr url]>
            (<["chunk_index"%string := MInt (Z.of_nat i)]>
            (<["text"%string := MStr (S_ chunk)]> ∅)))) |}
      :: vectors_to_store url client_id (S i) chunks' embeddings'
  | _, _ => []
  end.

Definition ingest_url (url client_id : string) (idx : index)
  : ingest_result * index :=
  match fetch_url url with
  | None => (failure "Unable to fetch content" url, idx)
  | Some html =>
      match extract_text html with
      | [] => (failure "Unable to extract text" url, idx)
      | (_ :: _) as text =>
          match recursive_chunk_text text default_chunk_size
                  default_overlap with
          | Raise e =>
              (failure ("Data ingestion failed: " +:+ exn_message e) url,
               idx)
          | Ok chunks =>
              match get_embeddings chunks with
              | [] => (failure "Unable to generate embeddings" url, idx)
              | (_ :: _) as embeddings =>
                  let '(count, idx') :=
                    upsert dense sparse index index_upsert
                      (vectors_to_store url client_id 0 chunks embeddings)
                      client_id idx in
                  ({| success := true;
                      message := "Data ingestion successful";
                      url := url;
                      chunks := Some (len chunks);
                      stored := Some count |}, idx')
              end
          end
      end
  end.

End Pipeline.

End Ingestion.

(** ** app.py: email extraction *)

Module Email.

Definition code (c : ascii) : Z := Z.of_nat (nat_of_ascii c).
Definition between (lo hi : Z) (c : ascii) : bool :=
  (lo <=? code c) && (code c <=? hi).
Definition one_of (s : string) (c : ascii) : bool := bool_decide (c ∈ T s).

Definition is_upper : ascii -> bool := between 65 90.
Definition is_lower : ascii -> bool := between 97 122.
Definition is_digit : ascii -> bool := between 48 57.

(** [[A-Za-z0-9._%+-]], [[A-Za-z0-9.-]] and [[A-Z|a-z]] *)
Definition local_char (c : ascii) : bool :=
  is_upper c || is_lower c || is_digit c || one_of "._%+-" c.
Definition domain_char (c : ascii) : bool :=
  is_upper c || is_lower c || is_digit c || one_of ".-" c.
Definition tld_char (c : ascii) : bool :=
  is_upper c || one_of "|" c || is_lower c.

(** [\w] of a [str] pattern: the alphanumerics of Unicode and the
    underscore; below 256 these are the ASCII ones, the ordinal
    indicators, micro, the superscript digits, the vulgar fractions and
    the accented letters. *)
Definition word_char (c : ascii) : bool :=
  is_upper c || is_lower c || is_digit c || (code c =? 95)
  || (code c =? 170) || (code c =? 178) || (code c =? 179)
  || (code c =? 181) || (code c =? 185) || (code c =? 186)
  || between 188 190 c || between 192 214 c || between 216 246 c
  || between 248 255 c.

(** [\b] between two neighbours; [None] is an end of the text. *)
Definition boundary (before after : option ascii) : bool :=
  xorb (from_option word_char false before)
       (from_option word_char false after).

(** The length of the longest prefix of [t] made of [p] characters. *)
Fixpoint run (p : ascii -> bool) (t : text) : nat :=
  match t with
  | c :: t' => if p c then S (run p t') else O
  | [] => O
  end.

(** A greedy repetition [{lo,}] with backtracking: the counts [hi],
    [hi - 1], ..., [lo] in that order, the first for which the rest of the
    pattern [k] matches. *)
Fixpoint greedy {A} (lo hi : nat) (k : nat -> option A) : option A :=
  match hi with
  | O => None
  | S hi' =>
      if (lo <=? hi)%nat
      then match k hi with
           | Some a => Some a
           | None => greedy lo hi' k
           end
      else None
  end.

(** [[A-Z|a-z]{2,}\b] at [t]: the number of characters matched. *)
Definition match_tld (t : text) : option nat :=
  greedy 2 (run tld_char t) (fun n =>
    if boundary (t !! (n - 1)%nat) (t !! n) then Some n else None).

(** [[A-Za-z0-9.-]+\.[A-Z|a-z]{2,}\b] at [t]. *)
Definition match_domain (t : text) : option nat :=
  greedy 1 (run domain_char t) (fun n =>
    match drop n t with
    | "."%char :: rest => (fun k => n + 1 + k)%nat <$> match_tld rest
    | _ => None
    end).

(** [[A-Za-z0-9._%+-]+@...] at [t]. *)
Definition match_local (t : text) : option nat :=
  greedy 1 (run local_char t) (fun n =>
    match drop n t with
    | "@"%char :: rest => (fun k => n + 1 + k)%nat <$> match_domain rest
    | _ => None
    end).

(** The whole pattern at [t], [before] being the character in front. *)
Definition match_at (before : option ascii) (t : text) : option nat :=
  if boundary before (head t) then match_local t else None.

(** [re.findall(email_pattern, text)]: leftmost matches, each search
    resuming where the match before it ended. *)
Fixpoint findall (fuel : nat) (before : option ascii) (t : text)
  : list text :=
  match fuel with
  | O => []
  | S fuel' =>
      match match_at before t with
      | Some n =>
          take n t :: findall fuel' (t !! (n - 1)%nat) (drop n t)
      | None =>
          match t with
          | [] => []
          | c :: t' => findall fuel' (Some c) t'
          end
      end
  end.

(** The character in front of what follows [pre], [before] being the one
    in front of [pre]. *)
Definition last_or (before : option ascii) (pre : text) : option ascii :=
  match last pre with
  | Some c => Some c
  | None => before
  end.

(** The shape of a match: local part, at sign, domain, full stop and a
    top-level part of two or more characters. *)
Definition email_shaped (e : text) : Prop :=
  ∃ l d tld,
    e = l ++ "@"%char :: d ++ "."%char :: tld
    ∧ l ≠ [] ∧ Forall (fun c => local_char c = true) l
    ∧ d ≠ [] ∧ Forall (fun c => domain_char c = true) d
    ∧ (2 <= length tld)%nat ∧ Forall (fun c => tld_char c = true) tld.

(** [e] is where the pattern first matches in [t]: it matches at the end
    of [pre] and at no position inside [pre]. *)
Definition first_match (t pre e : text) : Prop :=
  ∃ n rest,
    t = pre ++ e ++ rest
    ∧ match_at (last_or None pre) (e ++ rest) = Some n
    ∧ e = take n (e ++ rest)
    ∧ ∀ p1 p2, pre = p1 ++ p2 → p2 ≠ [] →
        match_at (last_or None p1) (p2 ++ e ++ rest) = None.

(** [matches[0] if matches else None] *)
Definition extract_email (message : string) : option string :=
  S_ <$> head (findall (S (length (T message))) None (T message)).

End Email.

(** ** app.py: sessions, leads and the chat handler *)

Module App.
Import VectorStore Email.

Record session_row : Type := {
  s_client_id : string;
  s_email_provided : bool;
  s_turn_count : Z
}.

Record message_row : Type := {
  msg_session_id : string;
  msg_role : string;
  msg_content : string
}.

Record lead_row : Type := {
  lead_name : string;
  lead_email : string;
  lead_status : string;
  lead_notes : string
}.

(** The three tables of [lumina_leads.db]; rows of [messages] and [leads]
    are in the order of their autoincremented ids. *)
Record db : Type := {
  sessions : gmap string session_row;
  messages : list message_row;
  leads : list lead_row
}.

(** The JSON body, after the defaults of [json_data.get]. *)
Record request : Type := {
  r_message : string;
  r_session_id : string;
  r_client_id : string;
  r_stream : bool
}.

Record chat_message : Type := {
  role : string;
  content : string
}.

Record chat_data : Type := {
  d_response : string;
  d_session_id : string;
  d_turn_count : Z;
  d_email_provided : bool
}.

Inductive sse_event : Type :=
  | EvChunk (content : string)
  | EvDone (session_id : string) (turn_count : Z) (email_provided : bool)
  | EvError (message : string).

Inductive response : Type :=
  | Json (status_code : Z) (success : bool) (message : string)
         (data : option chat_data)
  | EventStream (events : list sse_event).

Definition nl : string := String NL "".

Definition solicit_instruction : string :=
  "The user has NOT provided their email address yet. If the user shows strong interest or the conversation reaches a natural point to follow up, please politely ask for their email address to send more information or schedule a demo.".

Definition provided_instruction : string :=
  "The user has ALREADY provided their email address. Do not ask for it again.".

Definition system_prompt (email_status_instruction context_text : string)
  : string :=
  "You are a B2B sales expert. Your responses must be concise, professional, and persuasive."
  +:+ nl +:+ nl +:+
  "Please answer user questions based on the provided context information. "
  +:+ nl +:+
  "If context information is insufficient, please answer based on your professional knowledge but mention you are not 100% sure about specific details not in context."
  +:+ nl +:+
  "Maintain a professional, friendly, and concise tone."
  +:+ nl +:+ nl +:+ email_status_instruction
  +:+ nl +:+ nl +:+ "Context Information:" +:+ nl +:+ context_text.

(** [str(value)] of a metadata value. *)
Definition meta_str (v : meta_value) : string :=
  match v with
  | MStr s => s
  | MInt n => pretty n
  end.

Fixpoint join_lines (lines : list string) : string :=
  match lines with
  | [] => ""
  | [l] => l
  | l :: ls => l +:+ nl +:+ join_lines ls
  end.

(** [message.split('@')[0] if '@' in message else "Unknown"] *)
Definition lead_name_of (message : string) : string :=
  if bool_decide ("@"%char ∈ T message)
  then match py_split (T message) (T "@") with
       | Ok (first :: _) => S_ first
       | _ => ""
       end
  else "Unknown".

Definition lead_notes_of (session_id : string) : string :=
  "Auto-created from chat session, Session ID: " +:+ session_id.

(** [UPDATE sessions SET ... WHERE session_id = ?] *)
Definition set_turn_count (n : Z) (row : session_row) : session_row :=
  {| s_client_id := s_client_id row;
     s_email_provided := s_email_provided row;
     s_turn_count := n |}.

Definition set_email_provided (row : session_row) : session_row :=
  {| s_client_id := s_client_id row;
     s_email_provided := true;
     s_turn_count := s_turn_count row |}.

Definition update_session (f : session_row -> session_row)
    (session_id : string) (d : db) : db :=
  {| sessions := alter f session_id (sessions d);
     messages := messages d;
     leads := leads d |}.

Definition insert_session (session_id : string) (row : session_row)
    (d : db) : db :=
  {| sessions := <[session_id := row]> (sessions d);
     messages := messages d;
     leads := leads d |}.

Definition insert_message (session_id role content : string) (d : db)
  : db :=
  {| sessions := sessions d;
     messages := messages d ++
       [{| msg_session_id := session_id; msg_role := role;
           msg_content := content |}];
     leads := leads d |}.

Definition insert_lead (l : lead_row) (d : db) : db :=
  {| sessions := sessions d;
     messages := messages d;
     leads := leads d ++ [l] |}.

(** [SELECT role, content FROM messages WHERE session_id = ?
     ORDER BY id DESC LIMIT 6], reversed. *)
Definition recent_history (session_id : string) (d : db)
  : list chat_message :=
  let rows :=
    List.filter (fun m => bool_decide (msg_session_id m = session_id))
      (messages d) in
  map (fun m => {| role := msg_role m; content := msg_content m |})
    (rev (take 6 (rev rows))).

(** The lead the email trigger writes for a request. *)
Definition lead_for (req : request) (email : string) : lead_row :=
  {| lead_name := lead_name_of (r_message req);
     lead_email := email;
     lead_status := "new";
     lead_notes := lead_notes_of (r_session_id req) |}.

(** What the tables say about one session. *)
Definition email_provided_in (d : db) (session_id : string) : bool :=
  from_option s_email_provided false (sessions d !! session_id).

Definition turn_count_in (d : db) (session_id : string) : Z :=
  from_option s_turn_count 0 (sessions d !! session_id).

(** The leads the email trigger created for a session: the handler tags
    them with the session id in [notes]. *)
Definition auto_leads (session_id : string) (d : db) : list lead_row :=
  List.filter
    (fun l => bool_decide (lead_notes l = lead_notes_of session_id))
    (leads d).

(** One request, seen from one session: the flag stays up once it is up
    and then no lead is added for the session; while it is down, at most
    one lead is added, and the flag goes up with it. *)
Definition session_step (sid : string) (d d' : db) : Prop :=
  (email_provided_in d sid = true →
     email_provided_in d' sid = true ∧ auto_leads sid d' = auto_leads sid d)
  ∧ (email_provided_in d sid = false →
     auto_leads sid d' = auto_leads sid d
     ∨ (email_provided_in d' sid = true
        ∧ ∃ l, auto_leads sid d' = auto_leads sid d ++ [l])).

(** The system message of a completion request, and whether it carries
    the directive to ask for an email address. *)
Definition system_message (instruction context_text : string)
  : chat_message :=
  {| role := "system"; content := system_prompt instruction context_text |}.

Definition solicits (payload : list chat_message) : Prop :=
  ∃ context_text history,
    payload = system_message solicit_instruction context_text :: history.

(** An error reply: a 500 JSON body, or a stream that ends in an error
    event. *)
Definition is_error (r : response) : Prop :=
  match r with
  | Json status_code success _ _ => status_code = 500 ∧ success = false
  | EventStream events => ∃ msg, last events = Some (EvError msg)
  end.

Section Handler.
Variables dense sparse score : Type.
Variable truthy : sparse -> bool.
Variable index : Type.
Variable index_query :
  query_args dense sparse -> index -> result (list (scored score)).

(** What the collaborators of one request do: the module globals, the
    SQLite transaction that creates the lead, the embedding calls, the
    index, and the completion service, either as one response
    ([message.content], possibly [None]) or as a stream (the
    [delta.content] of its chunks, then the exception that ended it, if
    one did). *)
Record world : Type := {
  w_services_ready : bool;
  w_lead_insert : option exn;
  w_get_embeddings : list text -> list dense;
  w_get_sparse_vector_query : text -> sparse;
  w_index : index;
  w_completion : list chat_message -> result (option string);
  w_completion_stream : list chat_message -> list string * option exn
}.

(** The handler's reply, the tables after it, and the messages handed to
    the completion service if it was called. *)
Record outcome : Type := {
  reply : response;
  db_after : db;
  sent : option (list chat_message)
}.

Definition context_line (item : scored score) : string :=
  "- [Source: "
  +:+ from_option meta_str "unknown" (m_metadata item !! "url"%string)
  +:+ "] "
  +:+ from_option meta_str "" (m_metadata item !! "text"%string).

Definition context_text_of (context_results : list (scored score))
  : string :=
  match context_results with
  | [] => "No relevant context available"
  | _ :: _ => join_lines (map context_line context_results)
  end.

(** The body of [generate()], consumed to its end. *)
Definition generate (w : world) (messages_payload : list chat_message)
    (session_id : string) (new_turn_count : Z) (email_provided : bool)
    (d : db) : list sse_event * db :=
  let '(deltas, failure) := w_completion_stream w messages_payload in
  let contents := List.filter (fun c => negb (String.eqb c "")) deltas in
  match failure with
  | Some e =>
      (map EvChunk contents ++ [EvError (Ingestion.exn_message e)], d)
  | None =>
      (map EvChunk contents
         ++ [EvDone session_id new_turn_count email_provided],
       insert_message session_id "assistant"
         (fold_right String.append "" contents) d)
  end.

(** The first half of the handler, everything it commits before it
    calls a model: the session row, the turn count, the user message and
    the lead.  It gives the tables, [new_turn_count],
    [session_data["email_provided"]] and [email_captured]. *)
Definition begin_turn (req : request) (w : world) (d : db)
  : db * Z * bool * bool :=
  let message := r_message req in
  let session_id := r_session_id req in
  (* Initialize/Retrieve session *)
  let '(d, turn_count, email_provided) :=
    match sessions d !! session_id with
    | None =>
        (insert_session session_id
           {| s_client_id := r_client_id req; s_email_provided := false;
              s_turn_count := 0 |} d, 0, false)
    | Some session_row =>
        (d, s_turn_count session_row, s_email_provided session_row)
    end in
  (* Update turn count *)
  let new_turn_count := turn_count + 1 in
  let d := update_session (set_turn_count new_turn_count) session_id d in
  (* Store user message *)
  let d := insert_message session_id "user" message d in
  (* Detect email *)
  match extract_email message with
  | Some email =>
      if negb email_provided then
        (* Automatically create lead *)
        match w_lead_insert w with
        | None =>
            (update_session set_email_provided session_id
               (insert_lead (lead_for req email) d),
             new_turn_count, true, true)
        | Some _ => (d, new_turn_count, email_provided, false)
        end
      else (d, new_turn_count, email_provided, false)
  | None => (d, new_turn_count, email_provided, false)
  end.

(** The second half: retrieval, the prompt and the completion. *)
Definition respond (req : request) (w : world) (d : db)
    (new_turn_count : Z) (email_provided email_captured : bool)
  : outcome :=
  let message := r_message req in
  let session_id := r_session_id req in
  (* Get message embedding vector & sparse vector *)
  let embeddings := w_get_embeddings w [T message] in
  let sparse_vector := w_get_sparse_vector_query w (T message) in
  match embeddings with
  | [] =>
      {| reply := Json 500 false
           "Unable to generate message embedding vector" None;
         db_after := d; sent := None |}
  | query_vector :: _ =>
  (* Search for relevant context *)
  let context_results :=
    search dense sparse score truthy index index_query
      query_vector (Some sparse_vector) 5 (r_client_id req) (w_index w) in
  let context_text := context_text_of context_results in
  (* Retrieve recent history *)
  let history := recent_history session_id d in
  let email_status_instruction :=
    if negb email_provided then solicit_instruction
    else provided_instruction in
  let messages_payload :=
    system_message email_status_instruction context_text :: history in
  if r_stream req then
    let '(events, d) :=
      generate w messages_payload session_id new_turn_count
        (email_provided || email_captured) d in
    {| reply := EventStream events; db_after := d;
       sent := Some messages_payload |}
  else
    match w_completion w messages_payload with
    | Raise e =>
        {| reply := Json 500 false
             ("Error processing request: " +:+ Ingestion.exn_message e)
             None;
           db_after := d; sent := Some messages_payload |}
    | Ok content =>
        let assistant_response :=
          match content with
          | None | Some "" => "Sorry, I cannot generate a response."
          | Some c => c
          end in
        {| reply := Json 200 true ""
             (Some {| d_response := assistant_response;
                      d_session_id := session_id;
                      d_turn_count := new_turn_count;
                      d_email_provided :=
                        email_provided || email_captured |});
           db_after :=
             insert_message session_id "assistant" assistant_response d;
           sent := Some messages_payload |}
    end
  end.

(** [chat()]; [json_data] is [None] when the body is not JSON. *)
Definition chat (json_data : option request) (w : world) (d : db)
  : outcome :=
  match json_data with
  | None =>
      {| reply := Json 400 false "Request body must contain JSON data" None;
         db_after := d; sent := None |}
  | Some req =>
      if String.eqb (r_message req) "" then
        {| reply := Json 400 false "Message content cannot be empty" None;
           db_after := d; sent := None |}
      else if negb (w_services_ready w) then
        {| reply := Json 500 false
             "Services not initialized, please check environment variable configuration"
             None;
           db_after := d; sent := None |}
      else
        let '(d, new_turn_count, email_provided, email_captured) :=
          begin_turn req w d in
        respond req w d new_turn_count email_provided email_captured
  end.

(** A sequence of chat requests, one after the other. *)
Fixpoint chat_all (requests : list (option request * world)) (d : db)
  : db :=
  match requests with
  | [] => d
  | (json_data, w) :: more => chat_all more (db_after (chat json_data w d))
  end.

End Handler.

Arguments w_services_ready {dense sparse index} _.
Arguments w_lead_insert {dense sparse index} _.
Arguments w_get_embeddings {dense sparse index} _.
Arguments w_get_sparse_vector_query {dense sparse index} _.
Arguments w_index {dense sparse index} _.
Arguments w_completion {dense sparse index} _.
Arguments w_completion_stream {dense sparse index} _.

End App.

(** ** An in-memory deployment

    Concrete collaborators on which the handlers run: vectors of integers,
    an index that keeps its records in a list, replaces them by id,
    answers a query with the records that pass the filter and cuts the
    answer at [top_k]. *)

Module Memory.
Import VectorStore Ingestion App.

Definition dense : Type := list Z.
Definition sparse : Type := list (Z * Z).
Definition score : Type := Z.
Definition truthy (sv : sparse) : bool := true.
Definition index : Type := list (formatted_vector dense sparse).

#[global] Instance holds_dec c v : Decision (holds c v).
Proof. destruct c; simpl; apply _. Defined.

Definition passes_b (f : meta_filter) (m : metadata) : bool :=
  bool_decide (map_Forall (fun k c => holds c (m !! k)) f).

Definition index_upsert (fvs : list (formatted_vector dense sparse))
    (idx : index) : index * option exn :=
  (List.filter
     (fun old => negb (bool_decide (f_id old ∈ map f_id fvs))) idx ++ fvs,
   None).

Definition index_query (args : query_args dense sparse) (idx : index)
  : result (list (scored score)) :=
  Ok (take (Z.to_nat (q_top_k args))
        (map (fun fv => {| m_id := f_id fv; m_score := 0;
                           m_metadata := f_metadata fv |})
           (List.filter
              (fun fv => passes_b (q_filter args) (f_metadata fv)) idx))).

Definition record (id client_id : string)
  : formatted_vector dense sparse :=
  {| f_id := id; f_values := [1; 2];
     f_metadata := {[ "client_id"%string := MStr client_id ]};
     f_sparse_values := None |}.

Definition two_tenants : index :=
  [record "a_0" "tenant_a"; record "b_0" "tenant_b"; record "a_1" "tenant_a"].

(** A page of two paragraphs of 300 characters and an embedding service
    that answers with a single vector whatever it is sent. *)
Definition page : text :=
  repeat "a"%char 300 ++ [NL] ++ repeat "b"%char 300.

Definition fetch_url (url : string) : option text := Some page.
Definition extract_text (html : text) : text := html.
Definition one_embedding (texts : list text) : list dense := [[7]].
Definition get_sparse_vector (t : text) : sparse := [].

(** A vector that already carries a tenant tag. *)
Definition tagged : vector dense sparse :=
  {| v_id := Some "doc_0"; v_values := Some [1];
     v_sparse_values := None;
     v_metadata := Some {[ "client_id"%string := MStr "other" ]} |}.

Definition tagged_formatted : formatted_vector dense sparse :=
  {| f_id := "doc_0"; f_values := [1];
     f_metadata := {[ "client_id"%string := MStr "other" ]};
     f_sparse_values := None |}.

Definition empty_db : db :=
  {| sessions := ∅; messages := []; leads := [] |}.

(** A world in which every collaborator answers; [down] is the same world
    with a completion service that raises. *)
Definition up : world dense sparse index :=
  {| w_services_ready := true;
     w_lead_insert := None;
     w_get_embeddings := fun _ => [[1; 2]];
     w_get_sparse_vector_query := fun _ => [];
     w_index := two_tenants;
     w_completion := fun _ => Ok (Some "Happy to help.");
     w_completion_stream := fun _ => (["Happy "; "to help."], None) |}.

Definition down : world dense sparse index :=
  {| w_services_ready := true;
     w_lead_insert := None;
     w_get_embeddings := fun _ => [[1; 2]];
     w_get_sparse_vector_query := fun _ => [];
     w_index := two_tenants;
     w_completion := fun _ => Raise (ServiceError "Connection error.");
     w_completion_stream :=
       fun _ => (["Happy "], Some (ServiceError "Connection error.")) |}.

Definition jane : request :=
  {| r_message := "My email is jane@acme.com, what's the price?";
     r_session_id := "s1"; r_client_id := "tenant_a"; r_stream := false |}.

Definition jane_again : request :=
  {| r_message := "Also write to joe@acme.com";
     r_session_id := "s1"; r_client_id := "tenant_a"; r_stream := true |}.

Definition chat_here :=
  chat dense sparse score truthy index index_query.

End Memory.

(** ** ingestion.py: the last step of [extract_text]

    [lines = [line.strip() for line in markdown_text.splitlines()]] and
    [clean_text = '\n'.join(line for line in lines if line)]; the parsing
    of the page and its conversion to Markdown, which come before, are
    library calls. *)

Module Extract.

(** The line boundaries of [str.splitlines] below 256: LF, VT, FF, CR,
    FS, GS, RS and NEL. *)
Definition is_linebreak (c : ascii) : bool :=
  let n := Z.of_nat (nat_of_ascii c) in
  ((10 <=? n) && (n <=? 13)) || ((28 <=? n) && (n <=? 30)) || (n =? 133).

Definition CR : ascii := "013"%char.

(** [str.splitlines()]: [cur] is the line being read, reversed.  CR LF is
    one boundary, and a boundary at the very end opens no further line. *)
Fixpoint splitlines_scan (cur : text) (t : text) : list text :=
  match t with
  | [] =>
      match cur with
      | [] => []
      | _ :: _ => [rev cur]
      end
  | c :: t' =>
      if is_linebreak c
      then rev cur ::
           match t' with
           | c' :: t'' =>
               if bool_decide (c = CR) && bool_decide (c' = NL)
               then splitlines_scan [] t''
               else splitlines_scan [] t'
           | [] => splitlines_scan [] t'
           end
      else splitlines_scan (c :: cur) t'
  end.

Definition splitlines (t : text) : list text := splitlines_scan [] t.

Definition nonempty (t : text) : bool :=
  match t with
  | [] => false
  | _ :: _ => true
  end.

Definition clean_text (markdown_text : text) : text :=
  let lines := map strip (splitlines markdown_text) in
  py_join [NL] (List.filter nonempty lines).

(** A line as [clean_text] leaves it: not empty, without a line boundary
    inside and without white space at either end. *)
Definition clean_line (l : text) : Prop :=
  l ≠ []
  ∧ Forall (fun c => is_linebreak c = false) l
  ∧ from_option is_space false (head l) = false
  ∧ from_option is_space false (head (rev l)) = false.

End Extract.

(** ** app.py: [detect_purchase_intent] *)

Module Intent.

(** [str.lower()] on one character: the ASCII capitals and the accented
    capitals of Latin-1 move up by 32. *)
Definition lower_char (c : ascii) : ascii :=
  let n := nat_of_ascii c in
  if ((65 <=? n) && (n <=? 90))%nat || ((192 <=? n) && (n <=? 214))%nat
     || ((216 <=? n) && (n <=? 222))%nat
  then ascii_of_nat (n + 32)
  else c.

Definition lower (t : text) : text := map lower_char t.

(** [needle in hay] *)
Fixpoint contains (needle hay : text) : bool :=
  starts_with needle hay
  || match hay with
     | [] => false
     | _ :: hay' => contains needle hay'
     end.

Definition purchase_keywords : list text :=
  map T ["price"; "cost"; "pricing"; "how much";
         "how to start"; "how to buy"; "get started";
         "trial"; "demo"; "free trial";
         "buy"; "purchase"; "subscribe";
         "plan"; "package"; "pricing plan"]%string.

Definition detect_purchase_intent (message : text) : bool :=
  let message_lower := lower message in
  existsb (fun keyword => contains keyword message_lower) purchase_keywords.

End Intent.

(** ** app.py: the ingestion endpoint *)

Module Endpoint.
Import VectorStore Ingestion.

(** The JSON body of [/api/ingest], after the defaults of
    [json_data.get]. *)
Record ingest_request : Type := {
  i_url : string;
  i_client_id : string
}.

Inductive ingest_reply : Type :=
  | IngestJson (status_code : Z) (success : bool) (message : string)
      (data : option ingest_result).

Section IngestData.
Variables dense sparse : Type.
Variable index : Type.
Variable index_upsert :
  list (formatted_vector dense sparse) -> index -> index * option exn.
Variable fetch_url : string -> option text.
Variable extract_text : text -> text.
Variable get_embeddings : list text -> list dense.
Variable get_sparse_vector : text -> sparse.

(** [ingest_data()]; [initialised] tells whether [data_ingestion] is set. *)
Definition ingest_data (json_data : option ingest_request)
    (initialised : bool) (idx : index) : ingest_reply * index :=
  match json_data with
  | None =>
      (IngestJson 400 false "Request body must contain JSON data" None, idx)
  | Some req =>
      if String.eqb (i_url req) "" then
        (IngestJson 400 false "URL cannot be empty" None, idx)
      else if negb initialised then
        (IngestJson 500 false "Data ingestion service not initialized" None,
         idx)
      else
        let '(result, idx') :=
          ingest_url dense sparse index index_upsert fetch_url extract_text
            get_embeddings get_sparse_vector (i_url req) (i_client_id req)
            idx in
        (IngestJson 200 true "Data ingestion successful" (Some result), idx')
  end.

End IngestData.

End Endpoint.

(** A text without white space at either end, as [str.strip()] leaves
    it. *)
Definition trimmed (t : text) : Prop :=
  from_option is_space false (head t) = false
  ∧ from_option is_space false (head (rev t)) = false.

(** ** Requests the chat handler accepts

    A request is accepted when it passes the three checks at the top of
    [chat]: a JSON body, a non-empty message, initialised services. *)

Module Accept.
Import App.

Definition accepted {dense sparse index : Type}
    (json_data : option request) (w : world dense sparse index) : bool :=
  match json_data with
  | None => false
  | Some req => negb (String.eqb (r_message req) "") && w_services_ready w
  end.

Definition accepted_for {dense sparse index : Type} (session_id : string)
    (rw : option request * world dense sparse index) : bool :=
  accepted (fst rw) (snd rw)
  && match fst rw with
     | Some req => bool_decide (r_session_id req = session_id)
     | None => false
     end.

Definition user_row (req : request) : message_row :=
  {| msg_session_id := r_session_id req; msg_role := "user";
     msg_content := r_message req |}.

Definition assistant_row (req : request) (content : string) : message_row :=
  {| msg_session_id := r_session_id req; msg_role := "assistant";
     msg_content := content |}.

(** The rows of one session, oldest first. *)
Definition session_rows (session_id : string) (d : db) : list message_row :=
  List.filter (fun m => bool_decide (msg_session_id m = session_id))
    (messages d).

Definition as_chat_message (m : message_row) : chat_message :=
  {| role := msg_role m; content := msg_content m |}.

End Accept.

(** ** Outages on the in-memory deployment *)

Module Outage.
Import VectorStore App.

(** The world [Memory.up] with an embedding service that is down. *)
Definition no_embeddings
  : world Memory.dense Memory.sparse Memory.index :=
  {| w_services_ready := true;
     w_lead_insert := None;
     w_get_embeddings := fun _ => [];
     w_get_sparse_vector_query := fun _ => [];
     w_index := Memory.two_tenants;
     w_completion := fun _ => Ok (Some "Happy to help.");
     w_completion_stream := fun _ => (["Happy "; "to help."], None) |}.


Definition jane_streamed : request :=
  {| r_message := "My email is jane@acme.com, what's the price?";
     r_session_id := "s1"; r_client_id := "tenant_a"; r_stream := true |}.

End Outage.

(** * Properties *)

(** ** The chunker *)

Section ChunkerFacts.
Import Chunker.
Variables chunk_size overlap : Z.

Lemma validate_depth_agrees recurse_d recurse final_chunks validated :
  (∀ chunk, recurse_d chunk = Some (recurse chunk)) →
  validate_depth chunk_size recurse_d final_chunks validated
  = Some (validate chunk_size recurse final_chunks validated).
Proof.
  intros Hrec. revert validated.
  induction final_chunks as [|chunk more IH]; intros validated; simpl.
  - reflexivity.
  - destruct (len chunk >? chunk_size).
    + rewrite Hrec. destruct (recurse chunk) as [sub|e]; simpl; auto.
    + apply IH.
Qed.

Lemma split_text_depth_agrees separators :
  ∀ depth t, (length separators < depth)%nat →
  split_text_depth chunk_size overlap depth separators t
  = Some (split_text chunk_size overlap separators t).
Proof.
  induction separators as [|separator rest IH]; intros depth t Hd;
    (destruct depth as [|depth']; [simpl in Hd; lia|]); simpl.
  - destruct (len t <=? chunk_size); reflexivity.
  - destruct (len t <=? chunk_size); [reflexivity|].
    destruct (py_split t separator) as [splits|e]; simpl; [|reflexivity].
    apply validate_depth_agrees. intros chunk. apply IH.
    simpl in Hd. lia.
Qed.

Lemma py_range_positive_step stop step idxs :
  0 < step → py_range 0 stop step = Ok idxs →
  Forall (fun i => 0 <= i) idxs ∧ len idxs = range_len 0 stop step.
Proof.
  intros Hs. unfold py_range.
  destruct (Z.eqb_spec step 0) as [->|_]; [lia|].
  intros [= <-]. split.
  - apply List.Forall_forall. intros i Hi.
    apply in_map_iff in Hi as (k & <- & _).
    apply Z.add_nonneg_nonneg; [lia|apply Z.mul_nonneg_nonneg; lia].
  - unfold len. rewrite length_map, length_seq.
    apply Z2Nat.id. unfold range_len.
    destruct (Z.ltb_spec 0 step); [|lia].
    destruct (Z.ltb_spec 0 stop); [|lia].
    assert (0 <= (stop - 0 - 1) / step) by (apply Z.div_pos; lia). lia.
Qed.

Lemma py_range_negative_step stop step :
  step < 0 → 0 <= stop → py_range 0 stop step = Ok [].
Proof.
  intros Hs Hstop. unfold py_range, range_len.
  destruct (Z.eqb_spec step 0); [lia|].
  destruct (Z.ltb_spec 0 step); [lia|].
  destruct (Z.ltb_spec stop 0); [lia|]. reflexivity.
Qed.

Lemma py_slice_length t i n :
  0 < n → 0 <= i → len (py_slice t i (i + n)) <= n.
Proof.
  intros Hn Hi. unfold py_slice, slice_bound, len.
  rewrite length_firstn.
  destruct (Z.ltb_spec i 0); [lia|].
  destruct (Z.ltb_spec (i + n) 0); lia.
Qed.

Lemma hard_split_bounded t chunks :
  0 < chunk_size →
  hard_split chunk_size overlap t = Ok chunks →
  Forall (fun c => len c <= chunk_size) chunks.
Proof.
  intros Hcs. unfold hard_split.
  destruct (Z.lt_trichotomy (chunk_size - overlap) 0) as [Hneg|[H0|Hpos]].
  - rewrite py_range_negative_step by (unfold len; lia).
    simpl. intros [= <-]. constructor.
  - unfold py_range. rewrite H0. simpl. discriminate.
  - destruct (py_range 0 (len t) (chunk_size - overlap)) as [idxs|e] eqn:E;
      simpl; [|discriminate].
    intros [= <-].
    apply py_range_positive_step in E as [Hge _]; [|assumption].
    apply List.Forall_forall. intros c Hc.
    apply in_map_iff in Hc as (i & <- & Hi).
    apply py_slice_length; [assumption|].
    eapply List.Forall_forall in Hge; eauto.
Qed.

End ChunkerFacts.

Section SplitFacts.

Lemma starts_with_skipn p t :
  starts_with p t = true → t = p ++ skipn (length p) t.
Proof.
  revert t. induction p as [|a p IH]; intros t H; [reflexivity|].
  destruct t as [|b t]; [discriminate|]. simpl in H.
  apply andb_prop in H as [Hab Hp]. apply bool_decide_eq_true in Hab.
  subst b. simpl. f_equal. apply IH, Hp.
Qed.

Lemma split_scan_nonempty fuel sep acc t : split_scan fuel sep acc t ≠ [].
Proof.
  destruct fuel; simpl; [discriminate|].
  destruct t; [discriminate|]. destruct (starts_with sep _); [discriminate|].
  revert acc a t. induction fuel; intros acc a t; simpl; [discriminate|].
  destruct t; [discriminate|].
  destruct (starts_with sep _); [discriminate|]. apply IHfuel.
Qed.

Lemma py_join_cons sep p ps :
  ps ≠ [] → py_join sep (p :: ps) = p ++ sep ++ py_join sep ps.
Proof. destruct ps; [congruence|reflexivity]. Qed.

(** Joining the pieces of a split with the separator gives the text
    back: the scan loses nothing and never runs out of fuel. *)
Lemma split_scan_join sep : sep ≠ [] →
  ∀ fuel acc t, (length t <= fuel)%nat →
  py_join sep (split_scan fuel sep acc t) = rev acc ++ t.
Proof.
  intros Hsep. induction fuel as [|fuel IH]; intros acc t Hlen.
  - destruct t; [|simpl in Hlen; lia]. simpl. now rewrite app_nil_r.
  - destruct t as [|c t']; simpl; [now rewrite app_nil_r|].
    destruct (starts_with sep (c :: t')) eqn:E.
    + rewrite py_join_cons by apply split_scan_nonempty.
      rewrite IH.
      * simpl. now rewrite <- (starts_with_skipn _ _ E).
      * apply starts_with_skipn in E.
        apply (f_equal (@length ascii)) in E.
        rewrite length_app in E. simpl in E, Hlen.
        destruct sep; [congruence|]. simpl in *. lia.
    + rewrite IH by (simpl in Hlen; lia).
      simpl. now rewrite <- app_assoc.
Qed.

Lemma py_split_join t sep pieces :
  py_split t sep = Ok pieces → py_join sep pieces = t ∧ pieces ≠ [].
Proof.
  unfold py_split. destruct sep as [|a sep]; [discriminate|].
  intros [= <-]. split; [|apply split_scan_nonempty].
  now rewrite split_scan_join.
Qed.

End SplitFacts.

Section ErasureFacts.
Import Chunker.
Variables chunk_size overlap : Z.

(** [keep] selects the characters that count; white space never does.
    [R] relates what a text has of them to what its chunks have. *)
Variable keep : ascii -> bool.
Hypothesis keep_space : ∀ c, is_space c = true → keep c = false.

Variable R : text -> text -> Prop.
Hypothesis R_refl : ∀ t, R t t.
Hypothesis R_trans : ∀ t u v, R t u → R u v → R t v.
Hypothesis R_app : ∀ t t' u u', R t t' → R u u' → R (t ++ u) (t' ++ u').

Lemma erase_app t u :
  List.filter keep (t ++ u) = List.filter keep t ++ List.filter keep u.
Proof. apply List.filter_app. Qed.

Lemma erase_rev t : List.filter keep (rev t) = rev (List.filter keep t).
Proof.
  induction t as [|c t IH]; [reflexivity|]. simpl.
  rewrite erase_app, IH. simpl.
  destruct (keep c); simpl; [reflexivity|]. now rewrite app_nil_r.
Qed.

Lemma erase_lstrip t : List.filter keep (lstrip t) = List.filter keep t.
Proof.
  induction t as [|c t IH]; [reflexivity|]. simpl.
  destruct (is_space c) eqn:E; [|reflexivity].
  now rewrite (keep_space c E).
Qed.

Lemma erase_strip t : List.filter keep (strip t) = List.filter keep t.
Proof.
  unfold strip, rstrip.
  rewrite erase_rev, erase_lstrip, erase_rev, rev_involutive.
  apply erase_lstrip.
Qed.

Lemma erase_flush final_chunks current_chunk :
  List.filter keep (concat (flush final_chunks current_chunk))
  = List.filter keep (concat final_chunks) ++ List.filter keep current_chunk.
Proof.
  unfold flush. destruct current_chunk as [|c t].
  - now rewrite app_nil_r.
  - rewrite concat_app, erase_app. simpl concat.
    now rewrite app_nil_r, erase_strip.
Qed.

Lemma erase_accumulate sep splits :
  ∀ final_chunks current_chunk,
  let '(final_chunks', current_chunk') :=
    fold_left (accumulate chunk_size sep) splits
      (final_chunks, current_chunk) in
  List.filter keep (concat final_chunks') ++ List.filter keep current_chunk'
  = List.filter keep (concat final_chunks) ++ List.filter keep current_chunk
    ++ List.filter keep (concat (map (next_piece sep) splits)).
Proof.
  induction splits as [|s splits IH]; intros final_chunks current_chunk.
  - simpl. now rewrite app_nil_r.
  - cbn [fold_left].
    destruct (accumulate chunk_size sep (final_chunks, current_chunk) s)
      as [f1 c1] eqn:Est.
    specialize (IH f1 c1). destruct (fold_left _ _ _) as [f' c'].
    cbv beta iota in IH |- *. rewrite IH. simpl map. simpl concat.
    rewrite erase_app.
    unfold accumulate in Est.
    destruct (len current_chunk + len (next_piece sep s) >? chunk_size);
      injection Est as <- <-.
    + now rewrite erase_flush, <- !app_assoc.
    + now rewrite erase_app, <- !app_assoc.
Qed.

(** The greedy loop neither loses nor adds a character that counts. *)
Lemma erase_greedy_chunks sep splits :
  List.filter keep (concat (greedy_chunks chunk_size sep splits))
  = List.filter keep (concat (map (next_piece sep) splits)).
Proof.
  unfold greedy_chunks.
  pose proof (erase_accumulate sep splits [] []) as H.
  destruct (fold_left _ _ _) as [f' c']. cbv beta iota in H.
  now rewrite erase_flush, H.
Qed.

Lemma erase_validate recurse :
  ∀ final_chunks validated out,
  (∀ chunk sub, recurse chunk = Ok sub →
     R (List.filter keep chunk) (List.filter keep (concat sub))) →
  validate chunk_size recurse final_chunks validated = Ok out →
  R (List.filter keep (concat validated)
       ++ List.filter keep (concat final_chunks))
    (List.filter keep (concat out)).
Proof.
  induction final_chunks as [|chunk more IH]; intros validated out Hrec;
    simpl.
  - intros [= <-]. rewrite app_nil_r. apply R_refl.
  - destruct (len chunk >? chunk_size).
    + destruct (recurse chunk) as [sub|e] eqn:E; simpl; [|discriminate].
      intros H. apply IH in H; [|assumption].
      eapply R_trans; [|exact H].
      rewrite concat_app, !erase_app, <- app_assoc.
      apply R_app; [apply R_refl|].
      apply R_app; [now apply Hrec|apply R_refl].
    + intros H. apply IH in H; [|assumption].
      eapply R_trans; [|exact H].
      rewrite concat_app, !erase_app, <- app_assoc. simpl concat.
      rewrite app_nil_r. apply R_refl.
Qed.

(** Whenever the splitter returns, on a separator list that ends with the
    empty separator, the chunks carry what the text has, provided each
    level's re-added separators do. *)
Lemma erase_split_text seps :
  Forall (fun sep => ∀ pieces,
            R (List.filter keep (py_join sep pieces))
              (List.filter keep (concat (map (next_piece sep) pieces))))
    seps →
  ∀ t chunks,
  split_text chunk_size overlap (seps ++ [[]]) t = Ok chunks →
  R (List.filter keep t) (List.filter keep (concat chunks)).
Proof.
  induction 1 as [|sep seps Hsep _ IH]; intros t chunks; simpl.
  - destruct (len t <=? chunk_size); [|discriminate].
    intros [= <-]. simpl. rewrite app_nil_r. apply R_refl.
  - destruct (len t <=? chunk_size).
    { intros [= <-]. simpl. rewrite app_nil_r. apply R_refl. }
    destruct (py_split t sep) as [splits|e] eqn:E; simpl; [|discriminate].
    intros H. apply erase_validate in H; [|exact IH].
    eapply R_trans; [|exact H]. simpl.
    rewrite erase_greedy_chunks.
    apply py_split_join in E as [<- _]. apply Hsep.
Qed.

End ErasureFacts.

Section NormalizeFacts.
Import Chunker.

(** A separator made of separator characters: joining with it and
    appending it to every piece are the same after normalization. *)
Lemma normalize_pieces sep pieces :
  normalize sep = [] →
  normalize (py_join sep pieces)
  = normalize (concat (map (next_piece sep) pieces)).
Proof.
  intros Hsep. unfold normalize in *.
  induction pieces as [|p ps IH]; [reflexivity|].
  simpl map. simpl concat. rewrite List.filter_app, <- IH.
  assert (Hp : List.filter (fun c => negb (separator_char c))
                 (next_piece sep p)
               = List.filter (fun c => negb (separator_char c)) p).
  { unfold next_piece. destruct (bool_decide _); [reflexivity|].
    now rewrite List.filter_app, Hsep, app_nil_r. }
  rewrite Hp. destruct ps as [|q ps]; [simpl; now rewrite app_nil_r|].
  rewrite (py_join_cons sep p (q :: ps)); [|intros ?; discriminate].
  now rewrite !List.filter_app, Hsep.
Qed.

(** The visible characters of the joined pieces are among those of the
    pieces with the separator appended, in the same order. *)
Lemma visible_pieces sep pieces :
  visible (py_join sep pieces)
  `sublist_of` visible (concat (map (next_piece sep) pieces)).
Proof.
  unfold visible.
  assert (Hp : ∀ p, List.filter (fun c => negb (is_space c)) p
                    `sublist_of`
                    List.filter (fun c => negb (is_space c))
                      (next_piece sep p)).
  { intros p. unfold next_piece. destruct (bool_decide _); [reflexivity|].
    rewrite List.filter_app. now apply sublist_inserts_r. }
  induction pieces as [|p ps IH]; [reflexivity|].
  simpl map. simpl concat. rewrite List.filter_app.
  destruct ps as [|q ps].
  { simpl. rewrite app_nil_r. apply Hp. }
  rewrite (py_join_cons sep p (q :: ps)); [|intros ?; discriminate].
  rewrite !List.filter_app. unfold next_piece at 1.
  destruct (bool_decide_reflect (sep ∈ [[NL; NL]; [NL]])) as [Hnl|Hnl].
  - assert (Hsep : List.filter (fun c => negb (is_space c)) sep = []).
    { apply elem_of_cons in Hnl as [->|Hnl]; [reflexivity|].
      apply elem_of_cons in Hnl as [->|Hnl]; [reflexivity|].
      now apply elem_of_nil in Hnl. }
    rewrite Hsep. simpl. apply sublist_app; [reflexivity|exact IH].
  - rewrite List.filter_app, <- app_assoc.
    apply sublist_app; [reflexivity|].
    apply sublist_app; [reflexivity|exact IH].
Qed.

End NormalizeFacts.

Section ChunkerResults.
Import Chunker.

Lemma split_scan_absent sep c0 :
  ∀ fuel acc t, (length t <= fuel)%nat →
  Forall (fun c => c ≠ c0) t → hd_error sep = Some c0 →
  split_scan fuel sep acc t = [rev acc ++ t].
Proof.
  induction fuel as [|fuel IH]; intros acc t Hlen Hno Hsep.
  - destruct t; [|simpl in Hlen; lia]. simpl. now rewrite app_nil_r.
  - destruct t as [|c t']; simpl; [now rewrite app_nil_r|].
    destruct sep as [|s sep']; [discriminate|].
    injection Hsep as ->. inversion Hno as [|? ? Hc Hno']; subst.
    simpl. rewrite bool_decide_eq_false_2 by congruence. simpl.
    rewrite IH; [|simpl in Hlen; lia|assumption|reflexivity].
    simpl. now rewrite <- app_assoc.
Qed.

Lemma lstrip_visible t :
  from_option is_space false (head t) = false → lstrip t = t.
Proof. destruct t as [|c t]; simpl; [reflexivity|]. now intros ->. Qed.

Lemma strip_repeat c n : is_space c = false → strip (repeat c n) = repeat c n.
Proof.
  intros Hc. unfold strip, rstrip.
  assert (Hrev : rev (repeat c n) = repeat c n).
  { induction n as [|n IH]; [reflexivity|]. simpl. rewrite IH.
    clear IH. induction n as [|n IH]; [reflexivity|].
    simpl. now rewrite IH. }
  assert (Hl : lstrip (repeat c n) = repeat c n).
  { apply lstrip_visible. destruct n; simpl; auto. }
  now rewrite Hl, Hrev, Hl, Hrev.
Qed.

(** A paragraph without a line break that is one character too long
    comes out of the line-break level as one chunk that is too long. *)
Lemma greedy_chunks_may_exceed chunk_size :
  0 <= chunk_size →
  let t := repeat "a"%char (S (Z.to_nat chunk_size)) in
  py_split t [NL] = Ok [t]
  ∧ greedy_chunks chunk_size [NL] [t] = [t]
  ∧ chunk_size < len t.
Proof.
  intros Hcs t.
  assert (Hlen : len t = chunk_size + 1).
  { unfold t, len. rewrite repeat_length. lia. }
  assert (Hstrip : strip t = t) by now apply strip_repeat.
  assert (Hsplit : split_scan (length t) [NL] [] t = [t]).
  { apply (split_scan_absent [NL] NL _ [] t); [lia| |reflexivity].
    apply List.Forall_forall. intros c Hc.
    apply repeat_spec in Hc. subst c. discriminate. }
  clearbody t. split; [|split; [|lia]].
  - unfold py_split. now f_equal.
  - unfold greedy_chunks. cbn [fold_left]. unfold accumulate.
    change (next_piece [NL] t) with t. change (len (@nil ascii)) with 0.
    destruct (Z.gtb_spec (0 + len t) chunk_size); [|lia].
    unfold flush. destruct t; [unfold len in Hlen; simpl in Hlen; lia|].
    simpl app. now rewrite Hstrip.
Qed.

End ChunkerResults.

Section ChunkerClaims.
Import Chunker.

(** Whenever [recursive_chunk_text] returns, the chunks in order are the
    text up to separator normalization, and every character of the text
    that is not white space is in the chunks, in the order of the text. *)
Lemma recursive_chunk_text_keeps_content t chunk_size overlap chunks :
  recursive_chunk_text t chunk_size overlap = Ok chunks →
  normalize (concat chunks) = normalize t
  ∧ visible t `sublist_of` visible (concat chunks).
Proof.
  intros H. split.
  - symmetry. revert H.
    apply (erase_split_text chunk_size overlap
             (fun c => negb (separator_char c))) with (R := eq)
             (seps := [[NL; NL]; [NL]; T ". "; T " "]).
    + intros c Hc. unfold separator_char. now rewrite Hc.
    + reflexivity.
    + congruence.
    + congruence.
    + repeat constructor; intros pieces;
        now apply (normalize_pieces _ pieces).
  - revert H.
    apply (erase_split_text chunk_size overlap
             (fun c => negb (is_space c))) with (R := sublist)
             (seps := [[NL; NL]; [NL]; T ". "; T " "]).
    + intros c ->. reflexivity.
    + reflexivity.
    + intros t0 u v. apply transitivity.
    + intros t0 t' u u'. apply sublist_app.
    + repeat constructor; intros pieces; apply visible_pieces.
Qed.

(** At the empty separator the splitter raises for every text above the
    chunk size, so the branch without separators is out of reach of
    [recursive_chunk_text]. *)
Lemma split_text_empty_separator chunk_size overlap rest t :
  chunk_size < len t →
  split_text chunk_size overlap ([] :: rest) t
  = Raise (ValueError "empty separator").
Proof.
  intros H. simpl. destruct (Z.leb_spec (len t) chunk_size); [lia|].
  reflexivity.
Qed.

(** C2.  A text of 501 letters and no white space, chunked with the
    default sizes: the recursion reaches the empty separator, on which
    [str.split] raises, so no chunk at all is returned for a text whose
    content the chunks should carry. *)
Theorem recursive_chunk_text_raises_on_long_word :
  recursive_chunk_text (repeat "a"%char 501) default_chunk_size
    default_overlap
  = Raise (ValueError "empty separator").
Proof. vm_compute. reflexivity. Qed.

(** C3.  With a positive [chunk_size], every chunk the splitter returns
    when no separators are left is at most [chunk_size] long, and it does
    return chunks there whenever the overlap is below the chunk size.  The
    levels above give no such bound on the chunks they complete: a
    paragraph one character too long leaves the line-break level whole. *)
Theorem hard_split_respects_chunk_size chunk_size overlap t :
  0 < chunk_size →
  (∀ chunks, split_text chunk_size overlap [] t = Ok chunks →
     Forall (fun c => len c <= chunk_size) chunks)
  ∧ (overlap < chunk_size →
     ∃ chunks, split_text chunk_size overlap [] t = Ok chunks
               ∧ (chunk_size < len t →
                  len chunks = range_len 0 (len t) (chunk_size - overlap)))
  ∧ (∃ long splits,
       py_split long [NL] = Ok splits
       ∧ greedy_chunks chunk_size [NL] splits = [long]
       ∧ chunk_size < len long).
Proof.
  intros Hcs. split; [|split].
  - intros chunks. simpl.
    destruct (Z.leb_spec (len t) chunk_size).
    + intros [= <-]. repeat constructor. assumption.
    + now apply hard_split_bounded.
  - intros Hov. simpl.
    destruct (Z.leb_spec (len t) chunk_size).
    + eexists. split; [reflexivity|]. lia.
    + unfold hard_split.
      destruct (py_range 0 (len t) (chunk_size - overlap)) as [idxs|e] eqn:E.
      * simpl. eexists. split; [reflexivity|]. intros _.
        apply py_range_positive_step in E as [_ <-]; [|lia].
        unfold len. now rewrite length_map.
      * unfold py_range in E.
        destruct (Z.eqb_spec (chunk_size - overlap) 0); [lia|discriminate].
  - destruct (greedy_chunks_may_exceed chunk_size) as (H1 & H2 & H3); [lia|].
    eauto.
Qed.

Lemma hard_split_respects_chunk_size_witness :
  0 < 2
  ∧ split_text 2 1 [] (T "abcde")
    = Ok [T "ab"; T "bc"; T "cd"; T "de"; T "e"]
  ∧ Forall (fun c => len c <= 2) [T "ab"; T "bc"; T "cd"; T "de"; T "e"].
Proof.
  split; [lia|]. split; [reflexivity|].
  apply (proj1 (hard_split_respects_chunk_size 2 1 (T "abcde") ltac:(lia))).
  reflexivity.
Defined.

(** C7.  The recursion of [split_text] ends on every text, chunk size and
    overlap: each call recurses on the rest of the separator list, so a
    call stack one deeper than the list is long is always enough (six
    frames for [recursive_chunk_text]).  With no separators left one frame
    is enough: it returns the text itself or the hard split, which is the
    list of the [range(0, len(text), step)] slices for a positive step,
    a [ValueError] for a zero step and no slice for a negative one. *)
Theorem split_text_terminates chunk_size overlap t :
  split_text_depth chunk_size overlap 6 separators t
  = Some (recursive_chunk_text t chunk_size overlap)
  ∧ (∀ seps depth, (length seps < depth)%nat →
     split_text_depth chunk_size overlap depth seps t
     = Some (split_text chunk_size overlap seps t))
  ∧ split_text_depth chunk_size overlap 1 [] t
    = Some (if len t <=? chunk_size then Ok [t]
            else hard_split chunk_size overlap t)
  ∧ (0 < chunk_size - overlap →
     ∃ chunks, hard_split chunk_size overlap t = Ok chunks
               ∧ len chunks = range_len 0 (len t) (chunk_size - overlap))
  ∧ (chunk_size - overlap = 0 →
     hard_split chunk_size overlap t
     = Raise (ValueError "range() arg 3 must not be zero"))
  ∧ (chunk_size - overlap < 0 → hard_split chunk_size overlap t = Ok []).
Proof.
  split; [|split; [|split; [|split; [|split]]]].
  - apply split_text_depth_agrees. simpl. lia.
  - intros seps depth. apply split_text_depth_agrees.
  - simpl. destruct (len t <=? chunk_size); reflexivity.
  - intros Hstep. unfold hard_split.
    destruct (py_range 0 (len t) (chunk_size - overlap)) as [idxs|e] eqn:E.
    + simpl. eexists. split; [reflexivity|].
      apply py_range_positive_step in E as [_ <-]; [|lia].
      unfold len. now rewrite length_map.
    + unfold py_range in E.
      destruct (Z.eqb_spec (chunk_size - overlap) 0); [lia|discriminate].
  - intros Hstep. unfold hard_split, py_range. now rewrite Hstep.
  - intros Hstep. unfold hard_split.
    rewrite py_range_negative_step; [reflexivity|lia|unfold len; lia].
Qed.

Lemma split_text_terminates_witness :
  split_text_depth 3 0 6 separators (T "ab cd")
  = Some (Ok [T "ab"; T "cd."])
  ∧ split_text_depth 2 0 1 [] (T "abcde")
    = Some (Ok [T "ab"; T "cd"; T "e"]).
Proof.
  destruct (split_text_terminates 3 0 (T "ab cd")) as (H & _).
  destruct (split_text_terminates 2 0 (T "abcde")) as (_ & H' & _).
  split.
  - rewrite H. reflexivity.
  - rewrite (H' [] 1%nat ltac:(simpl; lia)). reflexivity.
Defined.

End ChunkerClaims.

(** ** The tenant filter and the tenant tag *)

Section StoreClaims.
Import VectorStore.
Variables dense sparse score : Type.
Variable truthy : sparse -> bool.
Variable index : Type.
Variable index_upsert :
  list (formatted_vector dense sparse) -> index -> index * option exn.
Variable index_query :
  query_args dense sparse -> index -> result (list (scored score)).

(** The contract of the remote index: a match passes the filter of the
    query that produced it. *)
Hypothesis index_filters :
  ∀ args idx matches, index_query args idx = Ok matches →
  Forall (fun m => passes (q_filter args) (m_metadata m)) matches.

(** C1.  For all client ids A ≠ B, query vectors, sparse vectors and
    [top_k]: the query [search] issues for A carries the equality filter
    on [client_id], and with an index that applies the filters it is sent
    every result of the search has A, and so not B, as its metadata
    [client_id]. *)
Theorem search_scoped_to_client query_vector sparse_vector top_k
    (A B : string) idx :
  A ≠ B →
  q_filter (search_query dense sparse truthy query_vector sparse_vector
              top_k A)
  = {[ "client_id"%string := CEq (MStr A) ]}
  ∧ ∀ r,
      In r (search dense sparse score truthy index index_query
              query_vector sparse_vector top_k A idx) →
      m_metadata r !! "client_id"%string = Some (MStr A)
      ∧ m_metadata r !! "client_id"%string ≠ Some (MStr B).
Proof.
  intros HAB. split; [reflexivity|]. intros r Hr.
  assert (Htag : m_metadata r !! "client_id"%string = Some (MStr A)).
  { unfold search in Hr.
    destruct (index_query _ idx) as [matches|e] eqn:E; [|destruct Hr].
    apply index_filters in E.
    apply in_map_iff in Hr as (m & <- & Hm).
    eapply List.Forall_forall in E; [|exact Hm].
    simpl. apply (E "client_id"%string (CEq (MStr A))).
    simpl. apply lookup_singleton_eq. }
  split; [exact Htag|]. rewrite Htag. congruence.
Qed.

(** C9.  What [upsert] hands to the index: a vector whose metadata has a
    [client_id] key keeps its metadata as it is, whatever the [client_id]
    argument; the argument is written only where the key is missing. *)
Theorem upsert_keeps_caller_client_id vectors client_id idx fvs :
  format_vectors dense sparse client_id vectors = Ok fvs →
  snd (upsert dense sparse index index_upsert vectors client_id idx)
  = fst (index_upsert fvs idx)
  ∧ Forall2
      (fun vec fv =>
         let metadata := default ∅ (v_metadata vec) in
         match metadata !! "client_id"%string with
         | Some tag =>
             f_metadata fv = metadata
             ∧ f_metadata fv !! "client_id"%string = Some tag
         | None =>
             f_metadata fv
             = <["client_id"%string := MStr client_id]> metadata
         end)
      vectors fvs.
Proof.
  intros Hfmt. split.
  - unfold upsert. rewrite Hfmt.
    now destruct (index_upsert fvs idx) as [idx' [e|]].
  - revert fvs Hfmt.
    induction vectors as [|vec more IH]; intros fvs; simpl.
    + intros [= <-]. constructor.
    + destruct (format_vector dense sparse client_id vec) as [fv|e] eqn:E;
        simpl; [|discriminate].
      destruct (format_vectors dense sparse client_id more) as [fvs'|e];
        simpl; [|discriminate].
      intros [= <-]. constructor; [|now apply IH].
      unfold format_vector in E.
      destruct (v_id vec); simpl in E; [|discriminate].
      destruct (v_values vec); simpl in E; [|discriminate].
      injection E as <-. simpl.
      destruct (default ∅ (v_metadata vec) !! "client_id"%string) eqn:L;
        auto.
Qed.

End StoreClaims.

Section MemoryFacts.
Import VectorStore Memory.

Lemma memory_index_filters args idx matches :
  Memory.index_query args idx = Ok matches →
  Forall (fun m => passes (q_filter args) (m_metadata m)) matches.
Proof.
  unfold Memory.index_query. intros [= <-].
  apply List.Forall_forall. intros m Hm.
  apply list_elem_of_In, elem_of_take in Hm as (i & Hm & _).
  apply list_elem_of_lookup_2, list_elem_of_In in Hm.
  apply in_map_iff in Hm as (fv & <- & Hfv).
  apply filter_In in Hfv as [_ Hp]. simpl.
  unfold passes_b in Hp. apply bool_decide_eq_true in Hp.
  exact Hp.
Qed.

End MemoryFacts.

Lemma search_scoped_to_client_witness :
  "tenant_a"%string ≠ "tenant_b"%string
  ∧ map VectorStore.m_id
      (VectorStore.search Memory.dense Memory.sparse Memory.score
         Memory.truthy Memory.index Memory.index_query [1; 2] None 5
         "tenant_a" Memory.two_tenants)
    = ["a_0"%string; "a_1"%string]
  ∧ ∀ r,
      In r (VectorStore.search Memory.dense Memory.sparse Memory.score
              Memory.truthy Memory.index Memory.index_query [1; 2] None 5
              "tenant_a" Memory.two_tenants) →
      VectorStore.m_metadata r !! "client_id"%string
      ≠ Some (VectorStore.MStr "tenant_b").
Proof.
  split; [discriminate|]. split; [vm_compute; reflexivity|].
  intros r Hr.
  apply (search_scoped_to_client Memory.dense Memory.sparse Memory.score
           Memory.truthy Memory.index Memory.index_query
           memory_index_filters [1; 2] None 5 "tenant_a" "tenant_b"
           Memory.two_tenants ltac:(discriminate)).
  exact Hr.
Defined.

Lemma upsert_keeps_caller_client_id_witness :
  VectorStore.format_vectors Memory.dense Memory.sparse "demo"
    [Memory.tagged] = Ok [Memory.tagged_formatted]
  ∧ VectorStore.f_metadata Memory.tagged_formatted !! "client_id"%string
    = Some (VectorStore.MStr "other")
  ∧ snd (VectorStore.upsert Memory.dense Memory.sparse Memory.index
           Memory.index_upsert [Memory.tagged] "demo" [])
    = [Memory.tagged_formatted].
Proof.
  assert (H : VectorStore.format_vectors Memory.dense Memory.sparse "demo"
                [Memory.tagged] = Ok [Memory.tagged_formatted])
    by (vm_compute; reflexivity).
  split; [exact H|]. split; [vm_compute; reflexivity|].
  rewrite (proj1 (upsert_keeps_caller_client_id Memory.dense Memory.sparse
                    Memory.index Memory.index_upsert [Memory.tagged] "demo"
                    [] [Memory.tagged_formatted] H)).
  reflexivity.
Defined.

(** ** Ingestion and the embedding batch *)

Section IngestClaims.
Import VectorStore Ingestion.
Variables dense sparse : Type.
Variable index : Type.
Variable index_upsert :
  list (formatted_vector dense sparse) -> index -> index * option exn.
Variable fetch_url : string -> option text.
Variable extract_text : text -> text.
Variable get_embeddings : list text -> list dense.
Variable get_sparse_vector : text -> sparse.

Lemma vectors_to_store_length url client_id i chunks embeddings :
  length (vectors_to_store dense sparse get_sparse_vector url client_id i
            chunks embeddings)
  = Nat.min (length chunks) (length embeddings).
Proof.
  revert i embeddings.
  induction chunks as [|c chunks IH]; intros i [|e embeddings]; simpl; auto.
Qed.

(** C4, as the code has it.  For a page that was fetched, extracted and
    chunked: when the embedding call returns no vector, [ingest_url]
    reports the failure and leaves the index as it was; when it returns
    at least one, [ingest_url] pairs chunks and vectors in order, hands
    as many vectors to [upsert] as the shorter of the two lists has, and
    reports success with the count [upsert] gave. *)
Theorem ingest_url_embedding_batch url client_id idx html chunks :
  fetch_url url = Some html →
  extract_text html ≠ [] →
  recursive_chunk_text (extract_text html) default_chunk_size
    default_overlap = Ok chunks →
  let embeddings := get_embeddings chunks in
  let vectors :=
    vectors_to_store dense sparse get_sparse_vector url client_id 0
      chunks embeddings in
  let run :=
    ingest_url dense sparse index index_upsert fetch_url extract_text
      get_embeddings get_sparse_vector url client_id idx in
  (embeddings = [] →
     run = (failure "Unable to generate embeddings" url, idx))
  ∧ (embeddings ≠ [] →
     length vectors = Nat.min (length chunks) (length embeddings)
     ∧ run =
       ({| success := true;
           message := "Data ingestion successful";
           url := url;
           chunks := Some (len chunks);
           stored := Some (fst (upsert dense sparse index index_upsert
                                  vectors client_id idx)) |},
        snd (upsert dense sparse index index_upsert vectors client_id
               idx))).
Proof.
  intros Hfetch Htext Hchunks embeddings vectors run.
  subst run vectors embeddings. unfold ingest_url. rewrite Hfetch.
  destruct (extract_text html) as [|c0 body] eqn:Et; [congruence|].
  rewrite Hchunks. split.
  - intros ->. reflexivity.
  - intros Hne. split; [apply vectors_to_store_length|].
    destruct (get_embeddings chunks) as [|e es]; [congruence|].
    now destruct (upsert _ _ _ _ _ _ _).
Qed.

End IngestClaims.

(** C4, as the spec has it, fails on a partial batch: two chunks, one
    vector back, and the ingestion reports success with one chunk stored. *)
Lemma ingest_url_partial_batch_is_stored :
  let run :=
    Ingestion.ingest_url Memory.dense Memory.sparse Memory.index
      Memory.index_upsert Memory.fetch_url Memory.extract_text
      Memory.one_embedding Memory.get_sparse_vector
      "https://example.com/pricing" "tenant_a" [] in
  (∃ chunks,
     recursive_chunk_text Memory.page default_chunk_size default_overlap
     = Ok chunks
     ∧ length chunks = 2%nat
     ∧ length (Memory.one_embedding chunks) = 1%nat)
  ∧ Ingestion.success (fst run) = true
  ∧ Ingestion.chunks (fst run) = Some 2
  ∧ Ingestion.stored (fst run) = Some 1
  ∧ map VectorStore.f_id (snd run)
    = ["https://example.com/pricing_0"%string].
Proof.
  split.
  - eexists. split; [vm_compute; reflexivity|]. split; reflexivity.
  - vm_compute. repeat split; reflexivity.
Qed.

Lemma ingest_url_embedding_batch_witness :
  Ingestion.ingest_url Memory.dense Memory.sparse Memory.index
    Memory.index_upsert Memory.fetch_url Memory.extract_text
    (fun _ => []) Memory.get_sparse_vector
    "https://example.com/pricing" "tenant_a" Memory.two_tenants
  = (Ingestion.failure "Unable to generate embeddings"
       "https://example.com/pricing", Memory.two_tenants).
Proof.
  apply (ingest_url_embedding_batch Memory.dense Memory.sparse Memory.index
           Memory.index_upsert Memory.fetch_url Memory.extract_text
           (fun _ => []) Memory.get_sparse_vector
           "https://example.com/pricing" "tenant_a" Memory.two_tenants
           Memory.page
           [repeat "a"%char 300; repeat "b"%char 300]).
  - reflexivity.
  - discriminate.
  - vm_compute. reflexivity.
  - reflexivity.
Defined.

(** ** The chat handler *)

Section HandlerFacts.
Import VectorStore Email App.
Variables dense sparse score : Type.
Variable truthy : sparse -> bool.
Variable index : Type.
Variable index_query :
  query_args dense sparse -> index -> result (list (scored score)).

Abbreviation world := (world dense sparse index).
Abbreviation chat := (chat dense sparse score truthy index index_query).
Abbreviation respond := (respond dense sparse score truthy index index_query).
Abbreviation begin_turn := (begin_turn dense sparse index).
Abbreviation chat_all := (chat_all dense sparse score truthy index index_query).

(** Everything the first half of the handler commits. *)
Lemma begin_turn_commits (req : request) (w : world) (d : db)
    d' n ep cap :
  let sid := r_session_id req in
  begin_turn req w d = (d', n, ep, cap) →
  n = turn_count_in d sid + 1
  ∧ ep = email_provided_in d' sid
  ∧ turn_count_in d' sid = turn_count_in d sid + 1
  ∧ (∀ s, s ≠ sid → sessions d' !! s = sessions d !! s)
  ∧ messages d'
    = messages d ++ [{| msg_session_id := sid; msg_role := "user";
                        msg_content := r_message req |}]
  ∧ (if cap
     then ∃ email,
            extract_email (r_message req) = Some email
            ∧ email_provided_in d sid = false
            ∧ email_provided_in d' sid = true
            ∧ leads d' = leads d ++ [lead_for req email]
     else leads d' = leads d
          ∧ email_provided_in d' sid = email_provided_in d sid
          ∧ (∀ email, extract_email (r_message req) = Some email →
             email_provided_in d sid = false →
             w_lead_insert w ≠ None)).
Proof.
  intros sid. unfold App.begin_turn. fold sid.
  unfold email_provided_in, turn_count_in.
  destruct (sessions d !! sid) as [row|] eqn:Hrow; simpl;
    destruct (extract_email (r_message req)) as [email|] eqn:Hemail;
    simpl;
    try (destruct (s_email_provided row) eqn:Hep; simpl);
    try (destruct (w_lead_insert w) as [e|] eqn:Hins);
    intros [= <- <- <- <-]; simpl;
    rewrite ?lookup_alter_eq, ?lookup_insert_eq, ?Hrow; simpl;
    rewrite ?Hep;
    (repeat split; try reflexivity; try congruence;
     try (intros s Hs;
          now rewrite ?lookup_alter_ne, ?lookup_insert_ne by congruence);
     try (eexists; repeat split; eauto; fail)).
Qed.

Lemma respond_keeps_sessions_and_leads req (w : world) d n ep cap :
  sessions (db_after (respond req w d n ep cap)) = sessions d
  ∧ leads (db_after (respond req w d n ep cap)) = leads d.
Proof.
  unfold App.respond.
  destruct (w_get_embeddings w _) as [|query_vector ?]; [easy|].
  destruct (r_stream req).
  - unfold generate.
    destruct (w_completion_stream w _) as [deltas [e|]]; easy.
  - destruct (w_completion w _) as [content|e]; easy.
Qed.

(** The handler either leaves the tables alone or runs its two halves. *)
Lemma chat_cases json (w : world) d :
  db_after (chat json w d) = d
  ∨ ∃ req d1 n ep cap,
      json = Some req
      ∧ begin_turn req w d = (d1, n, ep, cap)
      ∧ chat json w d = respond req w d1 n ep cap.
Proof.
  unfold App.chat. destruct json as [req|]; [|now left].
  destruct (String.eqb (r_message req) ""); [now left|].
  destruct (negb (w_services_ready w)); [now left|].
  destruct (App.begin_turn _ _ _ req w d) as [[[d1 n] ep] cap] eqn:E.
  right. now exists req, d1, n, ep, cap.
Qed.

Lemma append_inj_left p a b : p +:+ a = p +:+ b → a = b.
Proof. induction p as [|c p IH]; simpl; [auto|]. intros [= H]. auto. Qed.

Lemma lead_notes_of_inj s s' : lead_notes_of s = lead_notes_of s' → s = s'.
Proof. apply append_inj_left. Qed.

Lemma auto_leads_snoc sid d d' l :
  leads d' = leads d ++ [l] →
  auto_leads sid d'
  = auto_leads sid d
    ++ (if bool_decide (lead_notes l = lead_notes_of sid) then [l] else []).
Proof.
  unfold auto_leads. intros ->. rewrite List.filter_app. reflexivity.
Qed.

Lemma session_step_refl sid d : session_step sid d d.
Proof. split; auto. Qed.

Lemma session_step_trans sid d1 d2 d3 :
  session_step sid d1 d2 → session_step sid d2 d3 → session_step sid d1 d3.
Proof.
  intros [Hup12 Hdown12] [Hup23 Hdown23]. split.
  - intros H1. destruct (Hup12 H1) as [H2 E12].
    destruct (Hup23 H2) as [H3 E23]. split; congruence.
  - intros H1. destruct (Hdown12 H1) as [E12|(H2 & l & E12)].
    + destruct (email_provided_in d2 sid) eqn:H2.
      * destruct (Hup23 eq_refl) as [_ E23]. left. congruence.
      * destruct (Hdown23 eq_refl) as [E23|(H3 & l & E23)].
        -- left. congruence.
        -- right. split; [assumption|]. exists l. congruence.
    + destruct (Hup23 H2) as [H3 E23]. right.
      split; [assumption|]. exists l. congruence.
Qed.

Lemma chat_session_step json (w : world) d sid :
  session_step sid d (db_after (chat json w d)).
Proof.
  destruct (chat_cases json w d)
    as [->|(req & d1 & n & ep & cap & -> & Hbegin & ->)];
    [apply session_step_refl|].
  destruct (respond_keeps_sessions_and_leads req w d1 n ep cap)
    as [Hs Hl].
  set (d' := db_after (respond req w d1 n ep cap)) in *.
  assert (Hep : email_provided_in d' sid = email_provided_in d1 sid).
  { unfold email_provided_in. now rewrite Hs. }
  assert (Hal : auto_leads sid d' = auto_leads sid d1).
  { unfold auto_leads. now rewrite Hl. }
  apply begin_turn_commits in Hbegin
    as (_ & _ & _ & Hother & _ & Hcap).
  unfold session_step. rewrite Hep, Hal. clear Hep Hal Hs Hl d'.
  destruct (decide (sid = r_session_id req)) as [->|Hne].
  - destruct cap.
    + destruct Hcap as (email & _ & H0 & H1 & Hleads).
      rewrite H0, H1. split; [discriminate|]. intros _. right.
      split; [reflexivity|]. exists (lead_for req email).
      rewrite (auto_leads_snoc _ _ _ _ Hleads).
      now rewrite bool_decide_eq_true_2.
    + destruct Hcap as (Hleads & Hsame & _). rewrite Hsame.
      unfold auto_leads. rewrite Hleads. split; auto.
  - assert (Hsame : email_provided_in d1 sid = email_provided_in d sid).
    { unfold email_provided_in. now rewrite Hother. }
    assert (Hal : auto_leads sid d1 = auto_leads sid d).
    { destruct cap.
      - destruct Hcap as (email & _ & _ & _ & Hleads).
        rewrite (auto_leads_snoc _ _ _ _ Hleads).
        rewrite bool_decide_eq_false_2; [now rewrite app_nil_r|].
        cbn [lead_for lead_notes].
        intros H. apply lead_notes_of_inj in H. congruence.
      - destruct Hcap as (Hleads & _). unfold auto_leads.
        now rewrite Hleads. }
    rewrite Hsame, Hal. split; auto.
Qed.

Lemma chat_all_session_step requests d sid :
  session_step sid d (chat_all requests d).
Proof.
  revert d. induction requests as [|[json w] more IH]; intros d; simpl.
  - apply session_step_refl.
  - eapply session_step_trans; [apply chat_session_step|apply IH].
Qed.

(** C5.  Over any sequence of chat requests and for every session:
    [email_provided], once true, is still true at the end; once it is
    true the requests add no lead for the session; and whatever the
    start, the leads the trigger adds for the session are at most one. *)
Theorem email_provided_sticky_one_lead requests d sid :
  let d' := chat_all requests d in
  (email_provided_in d sid = true → email_provided_in d' sid = true)
  ∧ (email_provided_in d sid = true →
     auto_leads sid d' = auto_leads sid d)
  ∧ ∃ new, auto_leads sid d' = auto_leads sid d ++ new
           ∧ (length new <= 1)%nat
           ∧ (new ≠ [] → email_provided_in d sid = false
                         ∧ email_provided_in d' sid = true).
Proof.
  intros d'. destruct (chat_all_session_step requests d sid) as [Hup Hdown].
  fold d' in Hup, Hdown. split; [|split].
  - intros H. now apply Hup.
  - intros H. now apply Hup.
  - destruct (email_provided_in d sid) eqn:H0.
    + destruct (Hup eq_refl) as [_ E]. exists []. rewrite app_nil_r.
      split; [assumption|]. split; [simpl; lia|]. congruence.
    + destruct (Hdown eq_refl) as [E|(H1 & l & E)].
      * exists []. rewrite app_nil_r.
        split; [assumption|]. split; [simpl; lia|]. congruence.
      * exists [l]. split; [assumption|]. split; [simpl; lia|]. auto.
Qed.

End HandlerFacts.

(** ** The email pattern *)

Section EmailFacts.
Import Email.

Lemma greedy_Some {A} lo hi (k : nat -> option A) a :
  greedy lo hi k = Some a →
  ∃ n, (lo <= n <= hi)%nat ∧ k n = Some a.
Proof.
  induction hi as [|hi IH]; simpl; [discriminate|].
  destruct (Nat.leb_spec lo (S hi)); [|discriminate].
  destruct (k (S hi)) as [a'|] eqn:E.
  - intros [= <-]. exists (S hi). split; [lia|assumption].
  - intros H'. apply IH in H' as (n & Hn & Hk). exists n. split; [lia|auto].
Qed.

Lemma run_take p t n :
  (n <= run p t)%nat →
  Forall (fun c => p c = true) (take n t) ∧ length (take n t) = n.
Proof.
  revert n. induction t as [|c t IH]; intros n; simpl.
  - intros Hn. assert (n = 0%nat) as -> by lia. split; [constructor|easy].
  - destruct n as [|n]; [split; [constructor|easy]|].
    destruct (p c) eqn:E; [|lia]. intros Hn.
    destruct (IH n ltac:(lia)) as [HF HL]. simpl. split; [|lia].
    constructor; assumption.
Qed.

Lemma take_through (t : text) n c rest m :
  length (take n t) = n → drop n t = c :: rest →
  take (n + 1 + m) t = take n t ++ c :: take m rest
  ∧ length (take (n + 1 + m) t) = (n + 1 + length (take m rest))%nat.
Proof.
  intros Hlen Hdrop.
  assert (E : take (n + 1 + m) t = take n t ++ c :: take m rest).
  { rewrite <- (take_drop n t) at 1. rewrite Hdrop.
    replace (n + 1 + m)%nat with (length (take n t) + S m)%nat by lia.
    now rewrite take_app_add. }
  split; [exact E|]. rewrite E, length_app. simpl. lia.
Qed.

Lemma match_tld_shape t n :
  match_tld t = Some n →
  (2 <= n)%nat ∧ Forall (fun c => tld_char c = true) (take n t)
  ∧ length (take n t) = n.
Proof.
  unfold match_tld. intros H. apply greedy_Some in H as (k & Hk & H).
  destruct (boundary _ _); [|discriminate]. injection H as <-.
  destruct (run_take tld_char t k) as [HF HL]; [lia|]. split; [lia|auto].
Qed.

Lemma match_domain_shape t n :
  match_domain t = Some n →
  ∃ d tld,
    take n t = d ++ "."%char :: tld ∧ length (take n t) = n
    ∧ d ≠ [] ∧ Forall (fun c => domain_char c = true) d
    ∧ (2 <= length tld)%nat ∧ Forall (fun c => tld_char c = true) tld.
Proof.
  unfold match_domain. intros H. apply greedy_Some in H as (k & Hk & H).
  destruct (drop k t) as [|c rest] eqn:Hdrop; [discriminate|].
  destruct (Ascii.eqb_spec c "."%char) as [->|Hc].
  2:{ destruct c as [[] [] [] [] [] [] [] []]; try discriminate H.
      congruence. }
  destruct (match_tld rest) as [j|] eqn:Htld; [|discriminate].
  injection H as <-.
  apply match_tld_shape in Htld as (Hj & HF & HL).
  destruct (run_take domain_char t k) as [HFd HLd]; [lia|].
  destruct (take_through t k "."%char rest j HLd Hdrop) as [E EL].
  exists (take k t), (take j rest).
  split; [exact E|]. split; [rewrite EL, HL; lia|].
  split; [|split; [exact HFd|split; [lia|exact HF]]].
  intros Hnil. rewrite Hnil in HLd. simpl in HLd. lia.
Qed.

Lemma match_local_shape t n :
  match_local t = Some n →
  email_shaped (take n t) ∧ length (take n t) = n.
Proof.
  unfold match_local. intros H. apply greedy_Some in H as (k & Hk & H).
  destruct (drop k t) as [|c rest] eqn:Hdrop; [discriminate|].
  destruct (Ascii.eqb_spec c "@"%char) as [->|Hc].
  2:{ destruct c as [[] [] [] [] [] [] [] []]; try discriminate H.
      congruence. }
  destruct (match_domain rest) as [j|] eqn:Hdom; [|discriminate].
  injection H as <-.
  apply match_domain_shape in Hdom as (d & tld & Ed & HL & Hd).
  destruct (run_take local_char t k) as [HFl HLl]; [lia|].
  destruct (take_through t k "@"%char rest j HLl Hdrop) as [E EL].
  split; [|rewrite EL, Ed, <- Ed, HL; lia].
  exists (take k t), d, tld. rewrite E, Ed.
  split; [reflexivity|]. split; [|split; [exact HFl|exact Hd]].
  intros Hnil. rewrite Hnil in HLl. simpl in HLl. lia.
Qed.

Lemma last_or_cons before c pre :
  last_or before (c :: pre) = last_or (Some c) pre.
Proof.
  unfold last_or. destruct pre as [|c' pre]; [reflexivity|].
  rewrite last_cons_cons.
  destruct (last (c' :: pre)) eqn:E; [reflexivity|].
  apply last_None in E. discriminate.
Qed.

(** The head of [findall] is the leftmost match. *)
Lemma findall_head fuel :
  ∀ before t e, head (findall fuel before t) = Some e →
  ∃ pre n rest,
    t = pre ++ e ++ rest
    ∧ match_at (last_or before pre) (e ++ rest) = Some n
    ∧ e = take n (e ++ rest)
    ∧ ∀ p1 p2, pre = p1 ++ p2 → p2 ≠ [] →
        match_at (last_or before p1) (p2 ++ e ++ rest) = None.
Proof.
  induction fuel as [|fuel IH]; intros before t e; simpl; [discriminate|].
  destruct (match_at before t) as [n|] eqn:Hm.
  - simpl. intros [= <-]. exists [], n, (drop n t).
    rewrite take_drop. simpl. repeat split; auto.
    intros p1 p2 Hp Hne. destruct p1, p2; simpl in Hp; congruence.
  - destruct t as [|c t']; simpl; [discriminate|].
    intros H. apply IH in H as (pre & n & rest & -> & Hmatch & He & Hfirst).
    exists (c :: pre), n, rest. rewrite last_or_cons.
    repeat split; auto.
    intros p1 p2 Hp Hne. destruct p1 as [|c1 p1]; simpl in Hp.
    + subst p2. exact Hm.
    + injection Hp as <- ->. rewrite last_or_cons. now apply Hfirst.
Qed.

(** What [extract_email] returns is shaped like an address and is the
    first place of the message where the pattern matches. *)
Lemma extract_email_first message email :
  extract_email message = Some email →
  ∃ pre, first_match (T message) pre (T email)
         ∧ email_shaped (T email).
Proof.
  unfold extract_email.
  destruct (head (findall _ None (T message))) as [e|] eqn:H;
    [|discriminate].
  intros [= <-].
  assert (HT : T (S_ e) = e) by apply list_ascii_of_string_of_list_ascii.
  rewrite HT.
  apply findall_head in H as (pre & n & rest & Ht & Hm & He & Hfirst).
  exists pre. split.
  - exists n, rest. auto.
  - unfold match_at in Hm. destruct (boundary _ _); [|discriminate].
    apply match_local_shape in Hm as [Hs _]. now rewrite He.
Qed.

(** The fuel of [extract_email] is enough: a message in which the pattern
    matches somewhere has an email. *)
Lemma findall_finds fuel :
  ∀ before pre suf n, (length pre < fuel)%nat →
  match_at (last_or before pre) suf = Some n →
  head (findall fuel before (pre ++ suf)) ≠ None.
Proof.
  induction fuel as [|fuel IH]; intros before pre suf n Hfuel Hm;
    [lia|]. simpl.
  destruct (match_at before (pre ++ suf)) as [k|] eqn:E; [discriminate|].
  destruct pre as [|c pre]; simpl in *.
  - unfold last_or in Hm. simpl in Hm. congruence.
  - rewrite last_or_cons in Hm. apply (IH _ _ _ n); [lia|exact Hm].
Qed.

Lemma extract_email_finds message pre suf n :
  T message = pre ++ suf →
  match_at (last_or None pre) suf = Some n →
  ∃ email, extract_email message = Some email.
Proof.
  intros Ht Hm. unfold extract_email. rewrite Ht.
  pose proof (findall_finds (S (length (pre ++ suf))) None pre suf n) as H.
  destruct (head _) as [e|]; [eauto|].
  exfalso. apply H; [rewrite length_app; lia|exact Hm|reflexivity].
Qed.

Lemma extract_email_at message email :
  extract_email message = Some email → "@"%char ∈ T message.
Proof.
  intros H. apply extract_email_first in H
    as (pre & (n & rest & -> & _) & (l & d & tld & -> & _)).
  rewrite !elem_of_app, elem_of_cons. auto.
Qed.

(** [text.split(c)[0]] is the text in front of the first [c]. *)
Lemma split_scan_first (c : ascii) :
  ∀ fuel acc pre rest, c ∉ pre →
  head (split_scan fuel [c] acc (pre ++ c :: rest)) = Some (rev acc ++ pre)
  ∨ (fuel < length (pre ++ c :: rest))%nat.
Proof.
  induction fuel as [|fuel IH]; intros acc pre rest Hpre.
  - right. rewrite length_app. simpl. lia.
  - destruct pre as [|a pre]; simpl.
    + rewrite bool_decide_eq_true_2 by reflexivity. simpl. left.
      now rewrite app_nil_r.
    + apply not_elem_of_cons in Hpre as [Hac Hpre].
      rewrite bool_decide_eq_false_2 by congruence. simpl.
      destruct (IH (a :: acc) pre rest Hpre) as [H|H]; [|right; lia].
      left. rewrite H. simpl. now rewrite <- app_assoc.
Qed.

Lemma lead_name_of_prefix message :
  "@"%char ∈ T message →
  ∃ rest, T message = T (App.lead_name_of message) ++ "@"%char :: rest
          ∧ "@"%char ∉ T (App.lead_name_of message).
Proof.
  intros Hat. unfold App.lead_name_of.
  rewrite bool_decide_eq_true_2 by assumption.
  destruct (list_elem_of_split_l _ _ Hat) as (pre & rest & E & Hpre).
  rewrite E. unfold py_split. simpl T.
  destruct (split_scan_first "@"%char (length (pre ++ "@"%char :: rest))
              [] pre rest Hpre) as [H|H]; [|lia].
  destruct (split_scan _ _ _ _) as [|first more]; [discriminate|].
  simpl in H. injection H as ->.
  assert (HT : T (S_ pre) = pre)
    by apply list_ascii_of_string_of_list_ascii.
  rewrite HT. eauto.
Qed.

Lemma lead_name_of_unknown message :
  "@"%char ∉ T message → App.lead_name_of message = "Unknown"%string.
Proof.
  intros H. unfold App.lead_name_of. now rewrite bool_decide_eq_false_2.
Qed.

End EmailFacts.

(** ** The chat handler: prompt, failure and lead *)

Section HandlerClaims.
Import VectorStore Email App.
Variables dense sparse score : Type.
Variable truthy : sparse -> bool.
Variable index : Type.
Variable index_query :
  query_args dense sparse -> index -> result (list (scored score)).

Abbreviation world := (world dense sparse index).
Abbreviation chat := (chat dense sparse score truthy index index_query).
Abbreviation respond :=
  (respond dense sparse score truthy index index_query).
Abbreviation begin_turn := (begin_turn dense sparse index).
Abbreviation chat_all :=
  (chat_all dense sparse score truthy index index_query).

Lemma system_prompt_inj i1 c1 i2 c2 :
  system_prompt i1 c1 = system_prompt i2 c2 →
  i1 +:+ nl +:+ nl +:+ "Context Information:" +:+ nl +:+ c1
  = i2 +:+ nl +:+ nl +:+ "Context Information:" +:+ nl +:+ c2.
Proof.
  unfold system_prompt. intros H.
  repeat (apply append_inj_left in H). exact H.
Qed.

Lemma provided_does_not_solicit context_text history :
  ¬ solicits (system_message provided_instruction context_text :: history).
Proof.
  intros (c & h & H).
  apply (f_equal (fun l => match l with
                           | m :: _ => content m
                           | [] => ""%string
                           end)) in H.
  cbn [system_message content] in H.
  apply system_prompt_inj in H. unfold provided_instruction,
    solicit_instruction in H. simpl in H. discriminate H.
Qed.

(** The messages the second half hands to the completion service. *)
Lemma respond_sent req (w : world) d n ep cap payload :
  sent (respond req w d n ep cap) = Some payload →
  ∃ context_text,
    payload
    = system_message
        (if negb ep then solicit_instruction else provided_instruction)
        context_text
      :: recent_history (r_session_id req) d.
Proof.
  unfold App.respond.
  destruct (w_get_embeddings w _) as [|query_vector ?]; [discriminate|].
  destruct (r_stream req).
  - destruct (generate _ _ _ _ _ _ _ _ _) as [events d'].
    intros [= <-]. eauto.
  - destruct (w_completion w _) as [content|e]; intros [= <-]; eauto.
Qed.

Lemma chat_sent req (w : world) d payload :
  sent (chat (Some req) w d) = Some payload →
  ∃ d1 n cap,
    begin_turn req w d
    = (d1, n, email_provided_in d1 (r_session_id req), cap)
    ∧ chat (Some req) w d
      = respond req w d1 n (email_provided_in d1 (r_session_id req)) cap.
Proof.
  destruct (chat_cases dense sparse score truthy index index_query
              (Some req) w d)
    as [H|(req' & d1 & n & ep & cap & [= <-] & Hbegin & Hchat)].
  - unfold App.chat in *.
    destruct (String.eqb (r_message req) ""); [discriminate|].
    destruct (negb (w_services_ready w)); [discriminate|].
    destruct (App.begin_turn _ _ _ req w d) as [[[d1 n] ep] cap] eqn:E.
    pose proof (begin_turn_commits dense sparse index req w d _ _ _ _ E)
      as (_ & -> & _).
    intros _. exists d1, n, cap. auto.
  - pose proof (begin_turn_commits dense sparse index req w d _ _ _ _
                  Hbegin) as (_ & -> & _).
    intros _. exists d1, n, cap. auto.
Qed.

(** C6.  Take any state [d] of the tables, any requests [later] after
    it and then a request for session [sid].  If [email_provided] was
    true for [sid] in [d], or is true once this request has committed
    its own email (the turn in which the address is observed), then the
    system message handed to the completion service carries the
    already-provided instruction and not the directive to ask for an
    address. *)
Theorem no_solicitation_once_captured d later req (w : world) payload :
  let sid := r_session_id req in
  let out := chat (Some req) w (chat_all later d) in
  sent out = Some payload →
  email_provided_in d sid = true
  ∨ email_provided_in (db_after out) sid = true →
  (∃ context_text history,
     payload
     = system_message provided_instruction context_text :: history)
  ∧ ¬ solicits payload.
Proof.
  intros sid out Hsent Hcaptured.
  assert (Hafter : email_provided_in (db_after out) sid = true).
  { destruct Hcaptured as [H|H]; [|exact H].
    pose proof (chat_all_session_step dense sparse score truthy index
                  index_query later d sid) as [Hup _].
    destruct (Hup H) as [H1 _].
    pose proof (chat_session_step dense sparse score truthy index
                  index_query (Some req) w (chat_all later d) sid)
      as [Hup' _].
    now destruct (Hup' H1). }
  subst out. set (d0 := chat_all later d) in *.
  destruct (chat_sent req w d0 payload Hsent)
    as (d1 & n & cap & Hbegin & Hchat).
  rewrite Hchat in Hsent, Hafter.
  destruct (respond_keeps_sessions_and_leads dense sparse score truthy
              index index_query req w d1 n
              (email_provided_in d1 (r_session_id req)) cap) as [Hs _].
  assert (Hep : email_provided_in d1 sid = true).
  { unfold email_provided_in in *. now rewrite <- Hs. }
  apply respond_sent in Hsent as (context_text & ->).
  fold sid. rewrite Hep. simpl negb. cbv iota.
  split; [eauto|apply provided_does_not_solicit].
Qed.

Lemma respond_failure req (w : world) d n ep cap payload e :
  sent (respond req w d n ep cap) = Some payload →
  (if r_stream req
   then ∃ deltas, w_completion_stream w payload = (deltas, Some e)
   else w_completion w payload = Raise e) →
  is_error (reply (respond req w d n ep cap))
  ∧ db_after (respond req w d n ep cap) = d.
Proof.
  unfold App.respond.
  destruct (w_get_embeddings w _) as [|query_vector ?]; [discriminate|].
  destruct (r_stream req).
  - unfold generate.
    destruct (w_completion_stream w _) as [deltas failure] eqn:E.
    destruct failure as [e'|]; simpl; intros [= <-] (deltas' & Hfail);
      rewrite E in Hfail; [|discriminate].
    split; [|reflexivity]. eexists. apply last_snoc.
  - destruct (w_completion w _) as [content|e'] eqn:E; simpl;
      intros [= <-] Hfail; rewrite E in Hfail; [discriminate|].
    split; [|reflexivity]. split; reflexivity.
Qed.

(** C8.  A chat request whose completion call raises, in either mode:
    the reply is an error (a 500 body, or a stream that ends in an error
    event), and the tables are exactly those the first half of the
    handler committed: the turn count is one more than before, the user
    message is stored, and when the message carried an address for a
    session without one the flag is set and the lead is there. *)
Theorem completion_failure_keeps_commits req (w : world) d payload e :
  let sid := r_session_id req in
  let out := chat (Some req) w d in
  sent out = Some payload →
  (if r_stream req
   then ∃ deltas, w_completion_stream w payload = (deltas, Some e)
   else w_completion w payload = Raise e) →
  is_error (reply out)
  ∧ (∃ n ep cap, begin_turn req w d = (db_after out, n, ep, cap))
  ∧ turn_count_in (db_after out) sid = turn_count_in d sid + 1
  ∧ messages (db_after out)
    = messages d ++ [{| msg_session_id := sid; msg_role := "user";
                        msg_content := r_message req |}]
  ∧ (∀ email,
       extract_email (r_message req) = Some email →
       email_provided_in d sid = false →
       w_lead_insert w = None →
       email_provided_in (db_after out) sid = true
       ∧ leads (db_after out) = leads d ++ [lead_for req email]).
Proof.
  intros sid out Hsent Hfail. subst out.
  destruct (chat_sent req w d payload Hsent)
    as (d1 & n & cap & Hbegin & Hchat).
  rewrite Hchat in *.
  destruct (respond_failure _ _ _ _ _ _ _ _ Hsent Hfail) as [Herr ->].
  split; [exact Herr|]. split; [eauto|].
  apply begin_turn_commits in Hbegin
    as (_ & _ & Hturn & _ & Hmsgs & Hcap).
  split; [exact Hturn|]. split; [exact Hmsgs|].
  intros email Hemail H0 Hins. destruct cap.
  - destruct Hcap as (email' & Hemail' & _ & H1 & Hleads).
    split; [exact H1|]. congruence.
  - destruct Hcap as (_ & _ & Hno). now destruct (Hno email Hemail H0).
Qed.

(** C10.  When a chat request adds a lead, the stored email is what
    [extract_email] found, the first place of the message where the
    pattern matches; the message contains an at sign, and the stored name
    is the whole of the message in front of its first at sign, whatever
    the local part of the address is.  The name is the fallback
    ["Unknown"] for a message without an at sign, which no request that
    adds a lead has; for a message with one it is always the text in front
    of the first. *)
Theorem auto_lead_name_and_email req (w : world) d lead :
  leads (db_after (chat (Some req) w d)) = leads d ++ [lead] →
  (∃ email pre rest,
     extract_email (r_message req) = Some email
     ∧ lead = lead_for req email
     ∧ lead_email lead = email
     ∧ first_match (T (r_message req)) pre (T email)
     ∧ email_shaped (T email)
     ∧ T (r_message req) = T (lead_name lead) ++ "@"%char :: rest
     ∧ "@"%char ∉ T (lead_name lead))
  ∧ (∀ message, "@"%char ∉ T message →
       lead_name_of message = "Unknown"%string)
  ∧ (∀ message, "@"%char ∈ T message →
       ∃ rest, T message = T (lead_name_of message) ++ "@"%char :: rest
               ∧ "@"%char ∉ T (lead_name_of message)).
Proof.
  intros Hleads.
  split; [|split; [apply lead_name_of_unknown|apply lead_name_of_prefix]].
  assert (Hsnoc : ∀ (l : list lead_row) x, l ≠ l ++ [x]).
  { intros l x H. apply (f_equal (@length _)) in H.
    rewrite length_app in H. simpl in H. lia. }
  destruct (chat_cases dense sparse score truthy index index_query
              (Some req) w d)
    as [H|(req' & d1 & n & ep & cap & [= <-] & Hbegin & Hchat)].
  - rewrite H in Hleads. now apply Hsnoc in Hleads.
  - rewrite Hchat in Hleads.
    destruct (respond_keeps_sessions_and_leads dense sparse score truthy
                index index_query req w d1 n ep cap) as [_ Hl].
    rewrite Hl in Hleads.
    apply begin_turn_commits in Hbegin as (_ & _ & _ & _ & _ & Hcap).
    destruct cap.
    + destruct Hcap as (email & Hemail & _ & _ & Hd1).
      rewrite Hd1 in Hleads. apply app_inv_head in Hleads.
      injection Hleads as <-.
      destruct (extract_email_first _ _ Hemail) as (pre & Hfirst & Hshape).
      destruct (lead_name_of_prefix (r_message req)
                  (extract_email_at _ _ Hemail)) as (rest & Hname & Hno).
      exists email, pre, rest. repeat split; assumption.
    + destruct Hcap as (Hd1 & _). rewrite Hd1 in Hleads.
      now apply Hsnoc in Hleads.
Qed.

End HandlerClaims.

(** ** The handler on the in-memory deployment *)

Lemma email_provided_sticky_one_lead_witness :
  let d1 := App.db_after (Memory.chat_here (Some Memory.jane) Memory.up
                            Memory.empty_db) in
  let d2 := App.db_after (Memory.chat_here (Some Memory.jane_again)
                            Memory.up d1) in
  App.email_provided_in d1 "s1" = true
  ∧ App.email_provided_in d2 "s1" = true
  ∧ App.auto_leads "s1" d2 = App.auto_leads "s1" d1
  ∧ length (App.auto_leads "s1" d1) = 1%nat.
Proof.
  intros d1 d2.
  assert (H1 : App.email_provided_in d1 "s1" = true)
    by (vm_compute; reflexivity).
  destruct (email_provided_sticky_one_lead Memory.dense Memory.sparse
              Memory.score Memory.truthy Memory.index Memory.index_query
              [(Some Memory.jane_again, Memory.up)] d1 "s1")
    as (Hup & Hsame & _).
  split; [exact H1|]. split; [exact (Hup H1)|]. split; [exact (Hsame H1)|].
  vm_compute. reflexivity.
Defined.

Lemma no_solicitation_once_captured_witness :
  ∃ payload,
    App.sent (Memory.chat_here (Some Memory.jane) Memory.up Memory.empty_db)
    = Some payload
    ∧ ¬ App.solicits payload.
Proof.
  eexists. split; [vm_compute; reflexivity|].
  apply (no_solicitation_once_captured Memory.dense Memory.sparse
           Memory.score Memory.truthy Memory.index Memory.index_query
           Memory.empty_db [] Memory.jane Memory.up).
  - vm_compute. reflexivity.
  - right. vm_compute. reflexivity.
Defined.

Lemma completion_failure_keeps_commits_witness :
  let out := Memory.chat_here (Some Memory.jane) Memory.down
               Memory.empty_db in
  App.is_error (App.reply out)
  ∧ App.turn_count_in (App.db_after out) "s1" = 1
  ∧ App.email_provided_in (App.db_after out) "s1" = true
  ∧ App.leads (App.db_after out)
    = [App.lead_for Memory.jane "jane@acme.com"].
Proof.
  intros out.
  assert (Hsent : ∃ payload, App.sent out = Some payload)
    by (eexists; vm_compute; reflexivity).
  destruct Hsent as [payload Hsent].
  destruct (completion_failure_keeps_commits Memory.dense Memory.sparse
              Memory.score Memory.truthy Memory.index Memory.index_query
              Memory.jane Memory.down Memory.empty_db payload
              (ServiceError "Connection error.") Hsent eq_refl)
    as (Herr & _ & Hturn & _ & Hlead).
  split; [exact Herr|]. split; [exact Hturn|].
  apply (Hlead "jane@acme.com"%string); vm_compute; reflexivity.
Defined.

Lemma auto_lead_name_and_email_witness :
  let lead := App.lead_for Memory.jane "jane@acme.com" in
  App.lead_name lead = "My email is jane"%string
  ∧ App.lead_email lead = "jane@acme.com"%string
  ∧ ∃ rest, T (App.r_message Memory.jane)
            = T "My email is jane" ++ "@"%char :: rest.
Proof.
  intros lead.
  assert (Hname : App.lead_name lead = "My email is jane"%string)
    by (vm_compute; reflexivity).
  split; [exact Hname|]. split; [reflexivity|].
  destruct (auto_lead_name_and_email Memory.dense Memory.sparse
              Memory.score Memory.truthy Memory.index Memory.index_query
              Memory.jane Memory.up Memory.empty_db lead)
    as ((email & pre & rest & _ & _ & _ & _ & _ & Hmsg & _) & _ & _).
  - vm_compute. reflexivity.
  - exists rest. rewrite <- Hname. exact Hmsg.
Defined.

(** * Further properties *)

(** ** The chunker: sizes, overlap and unbroken text *)

Section ChunkerMore.
Import Chunker.
Variable chunk_size : Z.

Lemma validate_Forall (P : text -> Prop) recurse :
  ∀ final_chunks validated out,
  (∀ chunk, len chunk <= chunk_size → P chunk) →
  (∀ chunk sub, recurse chunk = Ok sub → Forall P sub) →
  Forall P validated →
  validate chunk_size recurse final_chunks validated = Ok out →
  Forall P out.
Proof.
  induction final_chunks as [|chunk more IH]; intros validated out HP Hrec Hv;
    simpl.
  - now intros [= <-].
  - destruct (Z.gtb_spec (len chunk) chunk_size).
    + destruct (recurse chunk) as [sub|e] eqn:E; simpl; [|discriminate].
      apply IH; auto. apply Forall_app. split; [assumption|eauto].
    + apply IH; auto. apply Forall_app. split; [assumption|].
      constructor; [apply HP; lia|constructor].
Qed.

Lemma split_text_bounded overlap seps :
  ∀ t chunks,
  split_text chunk_size overlap (seps ++ [[]]) t = Ok chunks →
  Forall (fun c => len c <= chunk_size) chunks.
Proof.
  induction seps as [|sep seps IH]; intros t chunks; simpl.
  - destruct (Z.leb_spec (len t) chunk_size); [|discriminate].
    intros [= <-]. now repeat constructor.
  - destruct (Z.leb_spec (len t) chunk_size).
    { intros [= <-]. now repeat constructor. }
    destruct (py_split t sep) as [splits|e]; simpl; [|discriminate].
    apply validate_Forall; auto.
Qed.

Lemma validate_ext recurse recurse' :
  (∀ chunk, recurse chunk = recurse' chunk) →
  ∀ final_chunks validated,
  validate chunk_size recurse final_chunks validated
  = validate chunk_size recurse' final_chunks validated.
Proof.
  intros Hext. induction final_chunks as [|chunk more IH]; intros validated;
    simpl; [reflexivity|].
  destruct (len chunk >? chunk_size); [|apply IH].
  rewrite Hext. destruct (recurse' chunk); simpl; [apply IH|reflexivity].
Qed.

Lemma split_text_overlap_unused overlap overlap' seps :
  ∀ t, split_text chunk_size overlap (seps ++ [[]]) t
       = split_text chunk_size overlap' (seps ++ [[]]) t.
Proof.
  induction seps as [|sep seps IH]; intros t; simpl.
  - reflexivity.
  - destruct (len t <=? chunk_size); [reflexivity|].
    destruct (py_split t sep); simpl; [|reflexivity].
    now apply validate_ext.
Qed.

End ChunkerMore.

(** X1.  Every chunk [recursive_chunk_text] returns is at most
    [chunk_size] long, at every level of the recursion and for every
    overlap. *)
Theorem recursive_chunk_text_bounded t chunk_size overlap chunks :
  recursive_chunk_text t chunk_size overlap = Ok chunks →
  Forall (fun c => len c <= chunk_size) chunks.
Proof.
  apply (split_text_bounded chunk_size overlap
           [[NL; NL]; [NL]; T ". "; T " "]).
Qed.

Lemma recursive_chunk_text_bounded_witness :
  recursive_chunk_text (T "one two. three four") 8 0
  = Ok [T "one two."; T "three"; T "four."]
  ∧ Forall (fun c => len c <= 8) [T "one two."; T "three"; T "four."].
Proof.
  assert (H : recursive_chunk_text (T "one two. three four") 8 0
              = Ok [T "one two."; T "three"; T "four."])
    by (vm_compute; reflexivity).
  split; [exact H|].
  exact (recursive_chunk_text_bounded _ _ _ _ H).
Defined.

(** X2.  The [overlap] argument has no effect on what
    [recursive_chunk_text] returns or raises. *)
Theorem recursive_chunk_text_ignores_overlap t chunk_size overlap overlap' :
  recursive_chunk_text t chunk_size overlap
  = recursive_chunk_text t chunk_size overlap'.
Proof.
  apply (split_text_overlap_unused chunk_size overlap overlap'
           [[NL; NL]; [NL]; T ". "; T " "]).
Qed.

Section UnbrokenText.
Import Chunker.
Variables chunk_size overlap : Z.

Lemma starts_with_elem p t c :
  starts_with p t = true → c ∈ p → c ∈ t.
Proof.
  intros H Hc. apply starts_with_skipn in H. rewrite H.
  apply elem_of_app. now left.
Qed.

(** A separator one of whose characters the text does not have splits
    nothing. *)
Lemma split_scan_no_occurrence sep c0 : c0 ∈ sep →
  ∀ fuel acc t, (length t <= fuel)%nat → c0 ∉ t →
  split_scan fuel sep acc t = [rev acc ++ t].
Proof.
  intros Hc0. induction fuel as [|fuel IH]; intros acc t Hlen Hno.
  - destruct t; [|simpl in Hlen; lia]. simpl. now rewrite app_nil_r.
  - destruct t as [|c t']; simpl; [now rewrite app_nil_r|].
    destruct (starts_with sep (c :: t')) eqn:E.
    { exfalso. apply Hno. eapply starts_with_elem; eauto. }
    rewrite IH; [|simpl in Hlen; lia|].
    + simpl. now rewrite <- app_assoc.
    + intros H. apply Hno. now right.
Qed.

Lemma py_split_no_occurrence sep c0 t :
  c0 ∈ sep → c0 ∉ t → py_split t sep = Ok [t].
Proof.
  intros Hc0 Hno. unfold py_split. destruct sep as [|a sep].
  - now apply elem_of_nil in Hc0.
  - f_equal. now apply (split_scan_no_occurrence (a :: sep) c0 Hc0 _ []).
Qed.

Lemma greedy_chunks_single sep x :
  greedy_chunks chunk_size sep [x] = flush [] (next_piece sep x).
Proof.
  unfold greedy_chunks. cbn [fold_left]. unfold accumulate.
  destruct (_ >? chunk_size); reflexivity.
Qed.

Lemma strip_trimmed t :
  from_option is_space false (head t) = false →
  from_option is_space false (head (rev t)) = false →
  strip t = t.
Proof.
  intros Hh Hl. unfold strip, rstrip.
  rewrite (lstrip_visible t Hh), (lstrip_visible (rev t) Hl).
  apply rev_involutive.
Qed.

(** The text with one separator appended, stripped: the white space at
    the end of the separator goes, the rest stays. *)
Lemma strip_unbroken t tail :
  t ≠ [] → Forall (fun c => is_space c = false) t →
  tail = [] ∨ tail = T "." →
  strip (t ++ tail) = t ++ tail
  ∧ strip (t ++ tail ++ T " ") = t ++ tail.
Proof.
  intros Hne Hvis Htail.
  assert (Hvis' : Forall (fun c => is_space c = false) (t ++ tail)).
  { apply Forall_app. split; [assumption|].
    destruct Htail as [->| ->]; repeat constructor. }
  assert (Hne' : t ++ tail ≠ []) by (destruct t; [congruence|discriminate]).
  remember (t ++ tail) as u eqn:Hu. rewrite app_assoc, <- Hu. clear Hu.
  assert (Hh : from_option is_space false (head u) = false).
  { destruct u; [reflexivity|]. now inversion Hvis'. }
  assert (Hl : from_option is_space false (head (rev u)) = false).
  { apply Forall_rev in Hvis'. destruct (rev u); [reflexivity|].
    now inversion Hvis'. }
  split; [now apply strip_trimmed|].
  unfold strip, rstrip.
  assert (Hh' : lstrip (u ++ T " ") = u ++ T " ").
  { apply lstrip_visible. destruct u; [congruence|]. simpl.
    now inversion Hvis'. }
  rewrite Hh', rev_app_distr. simpl.
  rewrite (lstrip_visible (rev u) Hl). apply rev_involutive.
Qed.

(** One level of the recursion on a text that the separator does not
    split and that stays too long: the level hands the stripped piece to
    the next one and returns what that returns. *)
Lemma split_text_passes sep c0 rest t :
  c0 ∈ sep → c0 ∉ t → chunk_size < len t →
  next_piece sep t ≠ [] →
  chunk_size < len (strip (next_piece sep t)) →
  split_text chunk_size overlap (sep :: rest) t
  = split_text chunk_size overlap rest (strip (next_piece sep t)).
Proof.
  intros Hc0 Hno Hlong Hne Hlong'. simpl.
  destruct (Z.leb_spec (len t) chunk_size); [lia|].
  rewrite (py_split_no_occurrence sep c0 t Hc0 Hno). simpl.
  rewrite greedy_chunks_single. unfold flush.
  destruct (next_piece sep t) as [|a piece] eqn:E; [congruence|].
  simpl. destruct (Z.gtb_spec (len (strip (a :: piece))) chunk_size); [|lia].
  destruct (split_text chunk_size overlap rest _) as [sub|e]; reflexivity.
Qed.

End UnbrokenText.

(** X3.  A text without white space that is longer than [chunk_size]
    makes [recursive_chunk_text] raise [ValueError("empty separator")]:
    no separator splits it, and the last separator tried is the empty
    string. *)
Theorem recursive_chunk_text_unbroken_raises t chunk_size overlap :
  t ≠ [] →
  Forall (fun c => is_space c = false) t →
  chunk_size < len t →
  recursive_chunk_text t chunk_size overlap
  = Raise (ValueError "empty separator").
Proof.
  intros Hne Hvis Hlong.
  assert (Hno : ∀ c, is_space c = true → c ∉ t).
  { intros c Hc Hin. apply list_elem_of_In in Hin.
    eapply List.Forall_forall in Hvis; [|exact Hin]. congruence. }
  destruct (strip_unbroken t [] Hne Hvis ltac:(now left)) as [S0 _].
  destruct (strip_unbroken t (T ".") Hne Hvis ltac:(now right)) as [S1 S2].
  rewrite app_nil_r in S0.
  assert (Hlen1 : len (t ++ T ".") = len t + 1).
  { unfold len. rewrite length_app. simpl. lia. }
  assert (Hno1 : " "%char ∉ t ++ T ".").
  { intros H. apply elem_of_app in H as [H|H].
    - now apply (Hno " "%char).
    - apply elem_of_cons in H as [H|H]; [discriminate|].
      now apply elem_of_nil in H. }
  unfold recursive_chunk_text, separators.
  rewrite (split_text_passes chunk_size overlap [NL; NL] NL);
    [|now left|now apply Hno|assumption|assumption|
     change (next_piece [NL; NL] t) with t; rewrite S0; lia].
  change (next_piece [NL; NL] t) with t. rewrite S0.
  rewrite (split_text_passes chunk_size overlap [NL] NL);
    [|now left|now apply Hno|assumption|assumption|
     change (next_piece [NL] t) with t; rewrite S0; lia].
  change (next_piece [NL] t) with t. rewrite S0.
  change (T ". ") with (T "." ++ T " ").
  rewrite (split_text_passes chunk_size overlap (T "." ++ T " ") " "%char);
    [|right; now left|now apply Hno|assumption|
     destruct t; [congruence|discriminate]|
     change (next_piece (T "." ++ T " ") t) with (t ++ T "." ++ T " ");
     rewrite S2; lia].
  change (next_piece (T "." ++ T " ") t) with (t ++ T "." ++ T " ").
  rewrite S2.
  rewrite (split_text_passes chunk_size overlap (T " ") " "%char);
    [|now left|assumption|lia|
     destruct t; [congruence|discriminate]|
     change (next_piece (T " ") (t ++ T ".")) with ((t ++ T ".") ++ T " ");
     rewrite <- app_assoc, S2; lia].
  change (next_piece (T " ") (t ++ T ".")) with ((t ++ T ".") ++ T " ").
  rewrite <- app_assoc, S2.
  apply split_text_empty_separator. lia.
Qed.

Lemma recursive_chunk_text_unbroken_raises_witness :
  recursive_chunk_text (T "https://example.com/a/very/long/path") 20 5
  = Raise (ValueError "empty separator").
Proof.
  apply recursive_chunk_text_unbroken_raises.
  - discriminate.
  - repeat constructor.
  - reflexivity.
Defined.

(** ** Ingestion: what reaches the index *)

Section IngestMore.
Import VectorStore Ingestion.
Variables dense sparse : Type.
Variable index : Type.
Variable index_upsert :
  list (formatted_vector dense sparse) -> index -> index * option exn.
Variable fetch_url : string -> option text.
Variable extract_text : text -> text.
Variable get_embeddings : list text -> list dense.
Variable get_sparse_vector : text -> sparse.

(** The vectors [ingest_url] builds pass through [upsert]'s formatting
    unchanged: each has its id and values, and its metadata already has
    the tenant tag. *)
Lemma format_vectors_to_store url client_id :
  ∀ chunks embeddings i,
  ∃ fvs,
    format_vectors dense sparse client_id
      (vectors_to_store dense sparse get_sparse_vector url client_id i
         chunks embeddings) = Ok fvs
    ∧ map f_id fvs
      = map (fun k => url +:+ "_" +:+ pretty k)
          (seq i (Nat.min (length chunks) (length embeddings)))
    ∧ map f_values fvs
      = take (Nat.min (length chunks) (length embeddings)) embeddings
    ∧ map (fun fv => f_metadata fv !! "text"%string) fvs
      = map (fun c => Some (MStr (S_ c)))
          (take (Nat.min (length chunks) (length embeddings)) chunks)
    ∧ map (fun fv => f_metadata fv !! "chunk_index"%string) fvs
      = map (fun k => Some (MInt (Z.of_nat k)))
          (seq i (Nat.min (length chunks) (length embeddings)))
    ∧ Forall (fun fv =>
                f_metadata fv !! "client_id"%string = Some (MStr client_id)
                ∧ f_metadata fv !! "url"%string = Some (MStr url)) fvs.
Proof.
  intros cs. induction cs as [|chunk cs IH];
    intros [|embedding embeddings] i;
    try (exists []; repeat split; constructor).
  destruct (IH embeddings (S i)) as (fvs & Hf & Hid & Hval & Htext & Hidx & Htag).
  cbn [vectors_to_store format_vectors].
  unfold format_vector at 1.
  cbn [v_metadata v_id v_values v_sparse_values default item].
  unfold id.
  eexists. split.
  { rewrite lookup_insert_eq. cbn [mbind result_bind]. rewrite Hf.
    cbn [mbind result_bind]. reflexivity. }
  cbn [map length Nat.min seq take f_id f_values f_metadata].
  rewrite Hid, Hval, Htext, Hidx.
  split; [reflexivity|]. split; [reflexivity|].
  split; [f_equal; rewrite !lookup_insert_ne by done;
          apply lookup_insert_eq|].
  split; [f_equal; rewrite !lookup_insert_ne by done;
          apply lookup_insert_eq|].
  constructor; [|exact Htag]. cbn [f_metadata]. split.
  - apply lookup_insert_eq.
  - rewrite lookup_insert_ne by done. apply lookup_insert_eq.
Qed.

(** The second half of [ingest_url], once the page is chunked and at
    least one vector came back. *)
Lemma ingest_url_stores url client_id idx html cs :
  fetch_url url = Some html →
  extract_text html ≠ [] →
  recursive_chunk_text (extract_text html) default_chunk_size
    default_overlap = Ok cs →
  get_embeddings cs ≠ [] →
  ∀ fvs,
  format_vectors dense sparse client_id
    (vectors_to_store dense sparse get_sparse_vector url client_id 0 cs
       (get_embeddings cs)) = Ok fvs →
  ingest_url dense sparse index index_upsert fetch_url extract_text
    get_embeddings get_sparse_vector url client_id idx
  = ({| success := true;
        message := "Data ingestion successful";
        url := url;
        chunks := Some (len cs);
        stored := Some (match snd (index_upsert fvs idx) with
                        | None => len fvs
                        | Some _ => 0
                        end) |},
     fst (index_upsert fvs idx)).
Proof.
  intros Hfetch Htext Hchunks Hemb fvs Hfvs.
  unfold ingest_url. rewrite Hfetch.
  destruct (extract_text html) as [|c0 body] eqn:Et; [congruence|].
  rewrite Hchunks.
  destruct (get_embeddings cs) as [|e es] eqn:Ee; [congruence|].
  unfold upsert. rewrite Hfvs.
  now destruct (index_upsert fvs idx) as [idx' [err|]].
Qed.

(** X4.  An ingestion that reports failure has not touched the index and
    carries no counts, whichever step failed. *)
Theorem ingest_url_failure_keeps_index url client_id idx :
  let run :=
    ingest_url dense sparse index index_upsert fetch_url extract_text
      get_embeddings get_sparse_vector url client_id idx in
  success (fst run) = false →
  snd run = idx ∧ chunks (fst run) = None ∧ stored (fst run) = None.
Proof.
  intros run. subst run. unfold ingest_url.
  destruct (fetch_url url) as [html|]; [|easy].
  destruct (extract_text html) as [|c0 body]; [easy|].
  destruct (recursive_chunk_text _ _ _) as [cs|e]; [|easy].
  destruct (get_embeddings cs) as [|e es]; [easy|].
  destruct (upsert _ _ _ _ _ _ _) as [count idx']. discriminate.
Qed.

(** X5.  Once the page is fetched, extracted and chunked and at least one
    vector came back, [ingest_url] reports success whatever the index
    does: the stored count is the shorter of the two list lengths when
    the write went through and 0 when it raised, and it never exceeds
    the number of chunks. *)
Theorem ingest_url_stored_count url client_id idx html cs :
  fetch_url url = Some html →
  extract_text html ≠ [] →
  recursive_chunk_text (extract_text html) default_chunk_size
    default_overlap = Ok cs →
  get_embeddings cs ≠ [] →
  let run :=
    ingest_url dense sparse index index_upsert fetch_url extract_text
      get_embeddings get_sparse_vector url client_id idx in
  ∃ fvs count,
    snd run = fst (index_upsert fvs idx)
    ∧ success (fst run) = true
    ∧ chunks (fst run) = Some (len cs)
    ∧ stored (fst run) = Some count
    ∧ count = match snd (index_upsert fvs idx) with
              | None => Z.min (len cs) (len (get_embeddings cs))
              | Some _ => 0
              end
    ∧ 0 <= count <= len cs.
Proof.
  intros Hfetch Htext Hchunks Hemb run.
  destruct (format_vectors_to_store url client_id cs (get_embeddings cs) 0%nat)
    as (fvs & Hfvs & Hid & _).
  subst run.
  rewrite (ingest_url_stores url client_id idx html cs Hfetch Htext Hchunks
             Hemb fvs Hfvs).
  assert (Hlen : len fvs = Z.min (len cs) (len (get_embeddings cs))).
  { apply (f_equal (@length _)) in Hid.
    rewrite !length_map, length_seq in Hid. unfold len. lia. }
  exists fvs. eexists. cbn [fst snd success chunks stored].
  split; [reflexivity|]. split; [reflexivity|]. split; [reflexivity|].
  split; [reflexivity|]. rewrite Hlen.
  split; [reflexivity|]. unfold len.
  destruct (snd (index_upsert fvs idx)); lia.
Qed.

(** X6.  What a successful ingestion hands to the index: one vector per
    chunk that has an embedding, with the ids [url_0], [url_1], ... (all
    different, and the same on every ingestion of the url), each tagged in
    its metadata with the [client_id] and [url] of the call, its chunk
    index and its chunk text, and holding the embedding of that chunk. *)
Theorem ingest_url_vectors url client_id idx html cs :
  fetch_url url = Some html →
  extract_text html ≠ [] →
  recursive_chunk_text (extract_text html) default_chunk_size
    default_overlap = Ok cs →
  get_embeddings cs ≠ [] →
  let n := Nat.min (length cs) (length (get_embeddings cs)) in
  ∃ fvs,
    snd (ingest_url dense sparse index index_upsert fetch_url extract_text
           get_embeddings get_sparse_vector url client_id idx)
    = fst (index_upsert fvs idx)
    ∧ map f_id fvs = map (fun k => url +:+ "_" +:+ pretty k) (seq 0 n)
    ∧ NoDup (map f_id fvs)
    ∧ map f_values fvs = take n (get_embeddings cs)
    ∧ map (fun fv => f_metadata fv !! "text"%string) fvs
      = map (fun c => Some (MStr (S_ c))) (take n cs)
    ∧ map (fun fv => f_metadata fv !! "chunk_index"%string) fvs
      = map (fun k => Some (MInt (Z.of_nat k))) (seq 0 n)
    ∧ Forall (fun fv =>
                f_metadata fv !! "client_id"%string = Some (MStr client_id)
                ∧ f_metadata fv !! "url"%string = Some (MStr url)) fvs.
Proof.
  intros Hfetch Htext Hchunks Hemb n.
  destruct (format_vectors_to_store url client_id cs (get_embeddings cs) 0%nat)
    as (fvs & Hfvs & Hid & Hval & Htxt & Hidx & Htag).
  exists fvs.
  rewrite (ingest_url_stores url client_id idx html cs Hfetch Htext Hchunks
             Hemb fvs Hfvs).
  split; [reflexivity|]. split; [exact Hid|].
  split; [|repeat split; assumption].
  rewrite Hid. apply (NoDup_fmap_2 (fun k : nat => url +:+ "_" +:+ pretty k)).
  apply NoDup_seq.
Qed.

End IngestMore.

Lemma ingest_url_failure_keeps_index_witness :
  snd (Ingestion.ingest_url Memory.dense Memory.sparse Memory.index
         Memory.index_upsert (fun _ => None) Memory.extract_text
         Memory.one_embedding Memory.get_sparse_vector
         "https://example.com/gone" "tenant_a" Memory.two_tenants)
  = Memory.two_tenants.
Proof.
  apply (ingest_url_failure_keeps_index Memory.dense Memory.sparse
           Memory.index Memory.index_upsert (fun _ => None)
           Memory.extract_text Memory.one_embedding
           Memory.get_sparse_vector "https://example.com/gone" "tenant_a"
           Memory.two_tenants).
  reflexivity.
Defined.

Lemma ingest_url_stored_count_witness :
  let run :=
    Ingestion.ingest_url Memory.dense Memory.sparse Memory.index
      (fun _ idx => (idx, Some (ServiceError "Connection error.")))
      Memory.fetch_url Memory.extract_text Memory.one_embedding
      Memory.get_sparse_vector "https://example.com/pricing" "tenant_a"
      Memory.two_tenants in
  Ingestion.success (fst run) = true
  ∧ Ingestion.stored (fst run) = Some 0.
Proof.
  intros run.
  destruct (ingest_url_stored_count Memory.dense Memory.sparse Memory.index
              (fun _ idx => (idx, Some (ServiceError "Connection error.")))
              Memory.fetch_url Memory.extract_text Memory.one_embedding
              Memory.get_sparse_vector "https://example.com/pricing"
              "tenant_a" Memory.two_tenants Memory.page
              [repeat "a"%char 300; repeat "b"%char 300])
    as (fvs & count & _ & Hs & _ & Hst & Hc & _).
  - reflexivity.
  - discriminate.
  - vm_compute. reflexivity.
  - discriminate.
  - split; [exact Hs|]. fold run in Hst. rewrite Hst, Hc. reflexivity.
Defined.

Lemma ingest_url_vectors_witness :
  ∃ fvs,
    snd (Ingestion.ingest_url Memory.dense Memory.sparse Memory.index
           Memory.index_upsert Memory.fetch_url Memory.extract_text
           Memory.one_embedding Memory.get_sparse_vector
           "https://example.com/pricing" "tenant_a" [])
    = fst (Memory.index_upsert fvs [])
    ∧ map VectorStore.f_id fvs = ["https://example.com/pricing_0"%string]
    ∧ Forall (fun fv =>
                VectorStore.f_metadata fv !! "client_id"%string
                = Some (VectorStore.MStr "tenant_a")) fvs.
Proof.
  destruct (ingest_url_vectors Memory.dense Memory.sparse Memory.index
              Memory.index_upsert Memory.fetch_url Memory.extract_text
              Memory.one_embedding Memory.get_sparse_vector
              "https://example.com/pricing" "tenant_a" [] Memory.page
              [repeat "a"%char 300; repeat "b"%char 300])
    as (fvs & Hrun & Hid & _ & _ & _ & _ & Htag).
  - reflexivity.
  - discriminate.
  - vm_compute. reflexivity.
  - discriminate.
  - exists fvs. split; [exact Hrun|]. split; [exact Hid|].
    eapply Forall_impl; [exact Htag|]. now intros fv [H _].
Defined.

(** ** The store client: batches *)

Section StoreMore.
Import VectorStore.
Variables dense sparse : Type.
Variable index : Type.
Variable index_upsert :
  list (formatted_vector dense sparse) -> index -> index * option exn.

Lemma format_vectors_complete client_id vectors :
  Forall (fun vec => is_Some (v_id vec) ∧ is_Some (v_values vec)) vectors →
  ∃ fvs,
    format_vectors dense sparse client_id vectors = Ok fvs
    ∧ map (fun fv => Some (f_id fv)) fvs = map v_id vectors
    ∧ map (fun fv => Some (f_values fv)) fvs = map v_values vectors
    ∧ map f_sparse_values fvs = map v_sparse_values vectors.
Proof.
  induction 1 as [|vec more [[id Hid] [values Hval]] _ IH].
  - exists []. repeat split.
  - destruct IH as (fvs & Hf & H1 & H2 & H3).
    cbn [format_vectors]. unfold format_vector at 1.
    rewrite Hid, Hval. cbn [item mbind result_bind]. rewrite Hf.
    cbn [mbind result_bind]. eexists. split; [reflexivity|].
    cbn [map f_id f_values f_sparse_values].
    rewrite H1, H2, H3, Hid, Hval. repeat split.
Qed.

Lemma format_vectors_incomplete client_id vectors :
  ¬ Forall (fun vec => is_Some (v_id vec) ∧ is_Some (v_values vec)) vectors →
  ∃ key, format_vectors dense sparse client_id vectors = Raise (KeyError key).
Proof.
  induction vectors as [|vec more IH]; intros Hbad.
  - exfalso. apply Hbad. constructor.
  - cbn [format_vectors]. unfold format_vector at 1.
    destruct (v_id vec) as [id|] eqn:Hid; [|eexists; reflexivity].
    destruct (v_values vec) as [values|] eqn:Hval; [|eexists; reflexivity].
    cbn [item mbind result_bind].
    destruct IH as [key Hkey].
    + intros Hmore. apply Hbad. constructor; [|exact Hmore].
      rewrite Hid, Hval. split; eexists; reflexivity.
    + rewrite Hkey. eexists. reflexivity.
Qed.

(** X7.  [upsert] writes a batch whole or not at all.  When every vector
    has an id and values, the index gets one formatted vector per input,
    with the same ids, values and sparse values in the same order, and the
    count returned is the size of the batch, or 0 if the index raised.
    When one vector lacks its id or its values, the index is not called
    and the count is 0, whatever the other vectors are. *)
Theorem upsert_whole_batch_or_nothing vectors client_id idx :
  (Forall (fun vec => is_Some (v_id vec) ∧ is_Some (v_values vec)) vectors →
   ∃ fvs,
     map (fun fv => Some (f_id fv)) fvs = map v_id vectors
     ∧ map (fun fv => Some (f_values fv)) fvs = map v_values vectors
     ∧ map f_sparse_values fvs = map v_sparse_values vectors
     ∧ upsert dense sparse index index_upsert vectors client_id idx
       = (match snd (index_upsert fvs idx) with
          | None => len vectors
          | Some _ => 0
          end, fst (index_upsert fvs idx)))
  ∧ (¬ Forall (fun vec => is_Some (v_id vec) ∧ is_Some (v_values vec))
         vectors →
     upsert dense sparse index index_upsert vectors client_id idx
     = (0, idx)).
Proof.
  split.
  - intros Hall.
    destruct (format_vectors_complete client_id vectors Hall)
      as (fvs & Hf & H1 & H2 & H3).
    exists fvs. repeat split; try assumption.
    unfold upsert. rewrite Hf.
    assert (Hlen : len fvs = len vectors).
    { apply (f_equal (@length _)) in H1. rewrite !length_map in H1.
      unfold len. now rewrite H1. }
    rewrite <- Hlen. now destruct (index_upsert fvs idx) as [idx' [e|]].
  - intros Hbad.
    destruct (format_vectors_incomplete client_id vectors Hbad) as [key Hk].
    unfold upsert. now rewrite Hk.
Qed.

End StoreMore.

Lemma upsert_whole_batch_or_nothing_witness :
  VectorStore.upsert Memory.dense Memory.sparse Memory.index
    Memory.index_upsert
    [Memory.tagged;
     {| VectorStore.v_id := None; VectorStore.v_values := Some [2];
        VectorStore.v_sparse_values := None;
        VectorStore.v_metadata := None |}]
    "demo" Memory.two_tenants
  = (0, Memory.two_tenants).
Proof.
  apply (upsert_whole_batch_or_nothing Memory.dense Memory.sparse
           Memory.index Memory.index_upsert).
  intros H. inversion H as [|? ? _ Hrest]; subst.
  inversion Hrest as [|? ? [[id Hid] _] _]; subst. discriminate Hid.
Defined.

(** ** The chat handler: acceptance, counters, history and replies *)

Section ChatMore.
Import VectorStore Email App Accept.
Variables dense sparse score : Type.
Variable truthy : sparse -> bool.
Variable index : Type.
Variable index_query :
  query_args dense sparse -> index -> result (list (scored score)).

Abbreviation world := (world dense sparse index).
Abbreviation chat := (chat dense sparse score truthy index index_query).
Abbreviation respond :=
  (respond dense sparse score truthy index index_query).
Abbreviation begin_turn := (begin_turn dense sparse index).
Abbreviation chat_all :=
  (chat_all dense sparse score truthy index index_query).

Lemma chat_rejected json (w : world) d :
  accepted json w = false →
  ∃ status_code msg,
    chat json w d
    = {| reply := Json status_code false msg None; db_after := d;
         sent := None |}
    ∧ (status_code = 400 ∨ status_code = 500).
Proof.
  unfold accepted, App.chat. destruct json as [req|]; [|eauto].
  destruct (String.eqb (r_message req) ""); [eauto|].
  destruct (w_services_ready w); [discriminate|]. simpl. eauto.
Qed.

Lemma chat_accepted json (w : world) d :
  accepted json w = true →
  ∃ req d1 cap,
    json = Some req
    ∧ begin_turn req w d
      = (d1, turn_count_in d (r_session_id req) + 1,
         email_provided_in d1 (r_session_id req), cap)
    ∧ chat json w d
      = respond req w d1 (turn_count_in d (r_session_id req) + 1)
          (email_provided_in d1 (r_session_id req)) cap
    ∧ (cap = true → email_provided_in d1 (r_session_id req) = true).
Proof.
  unfold accepted, App.chat. destruct json as [req|]; [|discriminate].
  destruct (String.eqb (r_message req) ""); [discriminate|].
  destruct (w_services_ready w); [|discriminate]. intros _. simpl negb.
  cbv iota.
  destruct (App.begin_turn _ _ _ req w d) as [[[d1 n] ep] cap] eqn:E.
  pose proof (begin_turn_commits dense sparse index req w d _ _ _ _ E)
    as (-> & -> & _ & _ & _ & Hcap).
  exists req, d1, cap.
  split; [reflexivity|]. split; [exact E|]. split; [reflexivity|].
  intros ->. now destruct Hcap as (email & _ & _ & H & _).
Qed.

(** X8.  A request that fails one of the three checks at the top of the
    handler is answered with a 400 or 500 error body and leaves no trace:
    the tables are unchanged and no model is called.  Every other request
    stores its user message, so its tables differ from those before. *)
Theorem chat_rejects_without_trace json (w : world) d :
  (accepted json w = false →
   db_after (chat json w d) = d
   ∧ sent (chat json w d) = None
   ∧ ∃ status_code msg,
       reply (chat json w d) = Json status_code false msg None
       ∧ (status_code = 400 ∨ status_code = 500))
  ∧ (accepted json w = true → db_after (chat json w d) ≠ d).
Proof.
  split.
  - intros H. destruct (chat_rejected json w d H) as (st & msg & -> & Hst).
    simpl. split; [reflexivity|]. split; [reflexivity|].
    exists st, msg. auto.
  - intros H. destruct (chat_accepted json w d H)
      as (req & d1 & cap & -> & Hbegin & -> & _).
    apply begin_turn_commits in Hbegin as (_ & _ & _ & _ & Hmsgs & _).
    intros Hsame. apply (f_equal messages) in Hsame.
    assert (Hlen : (length (messages d) < length (messages d1))%nat)
      by (rewrite Hmsgs, length_app; simpl; lia).
    assert (Hge : (length (messages d1)
                   <= length (messages (db_after
                        (respond req w d1
                           (turn_count_in d (r_session_id req) + 1)
                           (email_provided_in d1 (r_session_id req))
                           cap))))%nat).
    { unfold App.respond.
      destruct (w_get_embeddings w _) as [|qv ?]; [simpl; lia|].
      destruct (r_stream req).
      - unfold generate.
        destruct (w_completion_stream w _) as [deltas [e|]]; simpl;
          rewrite ?length_app; lia.
      - destruct (w_completion w _) as [c|e]; simpl;
          rewrite ?length_app; lia. }
    rewrite Hsame in Hge. lia.
Qed.

(** What the second half of the handler appends to the history: nothing,
    or one assistant row of the session. *)
Lemma respond_messages req (w : world) d n ep cap :
  ∃ tail,
    messages (db_after (respond req w d n ep cap)) = messages d ++ tail
    ∧ (tail = [] ∨ ∃ content, tail = [assistant_row req content]).
Proof.
  unfold App.respond.
  destruct (w_get_embeddings w _) as [|qv ?].
  { exists []. simpl. rewrite app_nil_r. auto. }
  destruct (r_stream req).
  - unfold generate.
    destruct (w_completion_stream w _) as [deltas [e|]]; simpl.
    + exists []. rewrite app_nil_r. auto.
    + eexists. split; [reflexivity|]. right. eexists. reflexivity.
  - destruct (w_completion w _) as [c|e]; simpl.
    + eexists. split; [reflexivity|]. right. eexists. reflexivity.
    + exists []. rewrite app_nil_r. auto.
Qed.

Lemma chat_turn_count json (w : world) d sid :
  turn_count_in (db_after (chat json w d)) sid
  = turn_count_in d sid + (if accepted_for sid (json, w) then 1 else 0).
Proof.
  unfold accepted_for. cbn [fst snd].
  destruct (accepted json w) eqn:Ha.
  - destruct (chat_accepted json w d Ha)
      as (req & d1 & cap & -> & Hbegin & -> & _).
    destruct (respond_keeps_sessions_and_leads dense sparse score truthy
                index index_query req w d1
                (turn_count_in d (r_session_id req) + 1)
                (email_provided_in d1 (r_session_id req)) cap) as [Hs _].
    unfold turn_count_in at 1. rewrite Hs.
    fold (turn_count_in d1 sid).
    apply begin_turn_commits in Hbegin as (_ & _ & Hturn & Hother & _).
    cbn [andb]. destruct (bool_decide_reflect (r_session_id req = sid))
      as [<-|Hne].
    + exact Hturn.
    + unfold turn_count_in. rewrite Hother by congruence. lia.
  - destruct (chat_rejected json w d Ha) as (st & msg & -> & _).
    simpl. lia.
Qed.

(** X9.  Over any sequence of chat requests, the [turn_count] of a session
    grows by exactly the number of requests for that session that passed
    the three checks, whatever became of them afterwards (an embedding or
    completion failure does not take the turn back), and requests for
    other sessions do not touch it. *)
Theorem turn_count_counts_accepted requests d sid :
  turn_count_in (chat_all requests d) sid
  = turn_count_in d sid
    + len (List.filter (accepted_for sid) requests).
Proof.
  revert d. induction requests as [|[json w] more IH]; intros d.
  - simpl. unfold len. simpl. lia.
  - cbn [App.chat_all List.filter]. rewrite IH, chat_turn_count.
    destruct (accepted_for sid (json, w)); unfold len; simpl length; lia.
Qed.

Lemma chat_messages json (w : world) d :
  ∃ new,
    messages (db_after (chat json w d)) = messages d ++ new
    ∧ Forall (fun m => msg_role m = "user"%string
                       ∨ msg_role m = "assistant"%string) new
    ∧ (if accepted json w
       then ∃ req tail, json = Some req ∧ new = user_row req :: tail
       else new = []).
Proof.
  destruct (accepted json w) eqn:Ha.
  - destruct (chat_accepted json w d Ha)
      as (req & d1 & cap & -> & Hbegin & -> & _).
    apply begin_turn_commits in Hbegin as (_ & _ & _ & _ & Hmsgs & _).
    destruct (respond_messages req w d1
                (turn_count_in d (r_session_id req) + 1)
                (email_provided_in d1 (r_session_id req)) cap)
      as (tail & -> & Htail).
    rewrite Hmsgs, <- app_assoc. eexists. split; [reflexivity|].
    split; [|eauto].
    constructor; [now left|].
    destruct Htail as [->|[c ->]]; [constructor|].
    constructor; [now right|constructor].
  - destruct (chat_rejected json w d Ha) as (st & msg & -> & _).
    exists []. simpl. rewrite app_nil_r. auto.
Qed.

(** X10.  The message history is append-only: after any sequence of chat
    requests the rows that were there are still there, unchanged and in
    front, and every row added has the role [user] or [assistant]. *)
Theorem messages_append_only requests d :
  ∃ new,
    messages (chat_all requests d) = messages d ++ new
    ∧ Forall (fun m => msg_role m = "user"%string
                       ∨ msg_role m = "assistant"%string) new
    ∧ (length (List.filter (fun rw => accepted (fst rw) (snd rw)) requests)
       <= length new)%nat.
Proof.
  revert d. induction requests as [|[json w] more IH]; intros d.
  - exists []. simpl. rewrite app_nil_r. auto.
  - cbn [App.chat_all List.filter fst snd].
    destruct (chat_messages json w d) as (new1 & H1 & HF1 & Hacc).
    destruct (IH (db_after (chat json w d))) as (new2 & H2 & HF2 & Hlen).
    exists (new1 ++ new2). rewrite H2, H1, <- app_assoc.
    split; [reflexivity|]. split; [now apply Forall_app|].
    rewrite length_app.
    destruct (accepted json w).
    + destruct Hacc as (req & tail & _ & ->). simpl. lia.
    + lia.
Qed.

Lemma insert_message_turn_count s r c d sid :
  turn_count_in (insert_message s r c d) sid = turn_count_in d sid.
Proof. reflexivity. Qed.

Lemma insert_message_email_provided s r c d sid :
  email_provided_in (insert_message s r c d) sid = email_provided_in d sid.
Proof. reflexivity. Qed.

Lemma recent_history_after_user req d d1 :
  messages d1 = messages d ++ [user_row req] →
  recent_history (r_session_id req) d1
  = map as_chat_message
      (rev (take 5 (rev (session_rows (r_session_id req) d))))
    ++ [{| role := "user"; content := r_message req |}].
Proof.
  intros Hmsgs. unfold recent_history, session_rows. rewrite Hmsgs.
  rewrite List.filter_app. cbn [List.filter user_row msg_session_id].
  rewrite bool_decide_eq_true_2 by reflexivity.
  rewrite rev_app_distr. cbn [rev app take].
  now rewrite map_app.
Qed.

(** X11.  The messages handed to the completion service are the system
    message, then at most five earlier rows of the session, oldest first
    (the newest five it has), then the user message of this request: never
    more than seven, and rows of other sessions are not among them. *)
Theorem chat_payload_window req (w : world) d payload :
  sent (chat (Some req) w d) = Some payload →
  (∃ instruction context_text,
     payload
     = system_message instruction context_text
       :: map as_chat_message
            (rev (take 5 (rev (session_rows (r_session_id req) d))))
       ++ [{| role := "user"; content := r_message req |}])
  ∧ (length payload <= 7)%nat
  ∧ last payload = Some {| role := "user"; content := r_message req |}.
Proof.
  intros Hsent.
  destruct (chat_sent dense sparse score truthy index index_query req w d
              payload Hsent) as (d1 & n & cap & Hbegin & Hchat).
  rewrite Hchat in Hsent.
  apply (respond_sent dense sparse score truthy index index_query)
    in Hsent as (context_text & ->).
  apply begin_turn_commits in Hbegin as (_ & _ & _ & _ & Hmsgs & _).
  rewrite (recent_history_after_user req d d1 Hmsgs).
  split; [eauto|]. split.
  - cbn [length]. rewrite length_app, length_map, length_rev, length_take.
    cbn [length]. lia.
  - rewrite app_comm_cons. apply last_snoc.
Qed.

(** X12.  An accepted request whose embedding call returns no vector is
    answered with a 500 error and calls no completion, but what the first
    half of the handler committed stays: the turn is counted, the user
    message is stored, and a lead the message triggered is created. *)
Theorem embedding_failure_keeps_commits req (w : world) d :
  let sid := r_session_id req in
  let out := chat (Some req) w d in
  accepted (Some req) w = true →
  w_get_embeddings w [T (r_message req)] = [] →
  reply out
  = Json 500 false "Unable to generate message embedding vector" None
  ∧ sent out = None
  ∧ turn_count_in (db_after out) sid = turn_count_in d sid + 1
  ∧ messages (db_after out) = messages d ++ [user_row req]
  ∧ (∀ email,
       extract_email (r_message req) = Some email →
       email_provided_in d sid = false →
       w_lead_insert w = None →
       email_provided_in (db_after out) sid = true
       ∧ leads (db_after out) = leads d ++ [lead_for req email]).
Proof.
  intros sid out Ha Hemb. subst out.
  destruct (chat_accepted (Some req) w d Ha)
    as (req' & d1 & cap & [= <-] & Hbegin & -> & _).
  unfold App.respond. rewrite Hemb. cbn [reply sent db_after].
  split; [reflexivity|]. split; [reflexivity|].
  apply begin_turn_commits in Hbegin
    as (_ & _ & Hturn & _ & Hmsgs & Hcap).
  split; [exact Hturn|]. split; [exact Hmsgs|].
  intros email Hemail H0 Hins. destruct cap.
  - destruct Hcap as (email' & Hemail' & _ & H1 & Hleads).
    split; [exact H1|]. congruence.
  - destruct Hcap as (_ & _ & Hno). now destruct (Hno email Hemail H0).
Qed.

(** X13.  A streamed reply: one chunk event for every non-empty delta, in
    order, then exactly one closing event.  When the stream ends well the
    closing event is [done] with the session's turn count and email flag
    as the tables have them, and one assistant row holding the deltas
    concatenated is stored after the user row; when it fails the closing
    event is [error] and no assistant row is stored. *)
Theorem chat_stream_events req (w : world) d :
  let sid := r_session_id req in
  let out := chat (Some req) w d in
  accepted (Some req) w = true →
  w_get_embeddings w [T (r_message req)] ≠ [] →
  r_stream req = true →
  ∃ payload,
    sent out = Some payload
    ∧ let contents :=
        List.filter (fun c => negb (String.eqb c ""))
          (fst (w_completion_stream w payload)) in
      match snd (w_completion_stream w payload) with
      | None =>
          reply out
          = EventStream
              (map EvChunk contents
               ++ [EvDone sid (turn_count_in (db_after out) sid)
                     (email_provided_in (db_after out) sid)])
          ∧ messages (db_after out)
            = messages d
              ++ [user_row req;
                  assistant_row req (fold_right String.append "" contents)]
      | Some e =>
          reply out
          = EventStream
              (map EvChunk contents ++ [EvError (Ingestion.exn_message e)])
          ∧ messages (db_after out) = messages d ++ [user_row req]
      end.
Proof.
  intros sid out Ha Hemb Hstream. subst out sid.
  destruct (chat_accepted (Some req) w d Ha)
    as (req' & d1 & cap & [= <-] & Hbegin & -> & Hcap).
  apply begin_turn_commits in Hbegin
    as (_ & _ & Hturn & _ & Hmsgs & _).
  unfold App.respond.
  destruct (w_get_embeddings w _) as [|qv rest]; [congruence|].
  rewrite Hstream. unfold generate.
  match goal with
  | |- context [w_completion_stream w ?p] => set (payload := p)
  end.
  exists payload.
  destruct (w_completion_stream w payload) as [deltas [e|]];
    cbn [fst snd reply sent db_after]; (split; [reflexivity|]).
  - split; [reflexivity|exact Hmsgs].
  - rewrite insert_message_turn_count, insert_message_email_provided.
    cbn [insert_message messages].
    rewrite Hturn, Hmsgs, <- app_assoc. split; [|reflexivity].
    do 3 f_equal.
    destruct cap; [now rewrite (Hcap eq_refl)|now rewrite orb_false_r].
Qed.

(** X14.  A reply that is not streamed and whose completion call returns:
    the body is a 200 success whose response text is never empty (the
    fallback sentence stands in for a missing or empty content), whose
    turn count and email flag are those of the tables, and the same text
    is stored as the assistant row after the user row. *)
Theorem chat_reply_success req (w : world) d payload content :
  let sid := r_session_id req in
  let out := chat (Some req) w d in
  sent out = Some payload →
  r_stream req = false →
  w_completion w payload = Ok content →
  ∃ text,
    reply out
    = Json 200 true ""
        (Some {| d_response := text; d_session_id := sid;
                 d_turn_count := turn_count_in (db_after out) sid;
                 d_email_provided :=
                   email_provided_in (db_after out) sid |})
    ∧ text ≠ ""%string
    ∧ text = match content with
             | None | Some "" => "Sorry, I cannot generate a response."
             | Some c => c
             end
    ∧ messages (db_after out)
      = messages d ++ [user_row req; assistant_row req text].
Proof.
  intros sid out Hsent Hstream Hok. subst out sid.
  destruct (chat_sent dense sparse score truthy index index_query req w d
              payload Hsent) as (d1 & n & cap & Hbegin & Hchat).
  rewrite Hchat in *.
  pose proof Hbegin as Hb.
  apply begin_turn_commits in Hb as (-> & _ & Hturn & _ & Hmsgs & Hcap).
  revert Hsent. unfold App.respond.
  destruct (w_get_embeddings w _) as [|qv rest]; [discriminate|].
  rewrite Hstream. 
  match goal with
  | |- context [w_completion w ?p] => set (payload' := p)
  end.
  intros Hsent.
  assert (payload' = payload) as Hp.
  { destruct (w_completion w payload'); now injection Hsent. }
  rewrite Hp, Hok. cbn [reply db_after].
  eexists. split; [|split; [|split; [reflexivity|]]].
  - rewrite insert_message_turn_count, insert_message_email_provided.
    rewrite Hturn. do 3 f_equal.
    destruct cap.
    + destruct Hcap as (email & _ & _ & H1 & _). now rewrite H1.
    + now rewrite orb_false_r.
  - destruct content as [[|a c]|]; discriminate.
  - cbn [insert_message messages]. now rewrite Hmsgs, <- app_assoc.
Qed.


End ChatMore.

Lemma chat_rejects_without_trace_witness :
  App.db_after (Memory.chat_here None Memory.up Memory.empty_db)
  = Memory.empty_db
  ∧ App.sent (Memory.chat_here None Memory.up Memory.empty_db) = None
  ∧ App.db_after (Memory.chat_here (Some Memory.jane) Memory.up
                    Memory.empty_db)
    ≠ Memory.empty_db.
Proof.
  destruct (chat_rejects_without_trace Memory.dense Memory.sparse
              Memory.score Memory.truthy Memory.index Memory.index_query
              None Memory.up Memory.empty_db) as [Hno _].
  destruct (chat_rejects_without_trace Memory.dense Memory.sparse
              Memory.score Memory.truthy Memory.index Memory.index_query
              (Some Memory.jane) Memory.up Memory.empty_db) as [_ Hyes].
  destruct (Hno eq_refl) as (Hd & Hs & _).
  split; [exact Hd|]. split; [exact Hs|]. exact (Hyes eq_refl).
Defined.

Lemma chat_payload_window_witness :
  ∃ payload,
    App.sent (Memory.chat_here (Some Memory.jane) Memory.up Memory.empty_db)
    = Some payload
    ∧ (length payload <= 7)%nat
    ∧ last payload
      = Some {| App.role := "user";
                App.content := App.r_message Memory.jane |}.
Proof.
  assert (H : ∃ payload,
            App.sent (Memory.chat_here (Some Memory.jane) Memory.up
                        Memory.empty_db) = Some payload)
    by (eexists; vm_compute; reflexivity).
  destruct H as [payload H]. exists payload. split; [exact H|].
  apply (chat_payload_window Memory.dense Memory.sparse Memory.score
           Memory.truthy Memory.index Memory.index_query Memory.jane
           Memory.up Memory.empty_db payload H).
Defined.

Lemma embedding_failure_keeps_commits_witness :
  let out := Memory.chat_here (Some Memory.jane) Outage.no_embeddings
               Memory.empty_db in
  App.reply out
  = App.Json 500 false "Unable to generate message embedding vector" None
  ∧ App.turn_count_in (App.db_after out) "s1" = 1
  ∧ App.leads (App.db_after out)
    = [App.lead_for Memory.jane "jane@acme.com"].
Proof.
  intros out.
  destruct (embedding_failure_keeps_commits Memory.dense Memory.sparse
              Memory.score Memory.truthy Memory.index Memory.index_query
              Memory.jane Outage.no_embeddings Memory.empty_db
              eq_refl eq_refl)
    as (Hreply & _ & Hturn & _ & Hlead).
  split; [exact Hreply|]. split; [exact Hturn|].
  apply (Hlead "jane@acme.com"%string); vm_compute; reflexivity.
Defined.

Lemma chat_stream_events_witness :
  App.reply (Memory.chat_here (Some Outage.jane_streamed) Memory.down
               Memory.empty_db)
  = App.EventStream
      [App.EvChunk "Happy "; App.EvError "Connection error."].
Proof.
  destruct (chat_stream_events Memory.dense Memory.sparse Memory.score
              Memory.truthy Memory.index Memory.index_query
              Outage.jane_streamed Memory.down Memory.empty_db
              eq_refl ltac:(discriminate) eq_refl)
    as (payload & _ & Hreply & _).
  exact Hreply.
Defined.

Lemma chat_reply_success_witness :
  ∃ text,
    App.reply (Memory.chat_here (Some Memory.jane) Memory.up
                 Memory.empty_db)
    = App.Json 200 true ""
        (Some {| App.d_response := text; App.d_session_id := "s1";
                 App.d_turn_count := 1; App.d_email_provided := true |})
    ∧ text ≠ ""%string.
Proof.
  assert (H : ∃ payload,
            App.sent (Memory.chat_here (Some Memory.jane) Memory.up
                        Memory.empty_db) = Some payload)
    by (eexists; vm_compute; reflexivity).
  destruct H as [payload H].
  destruct (chat_reply_success Memory.dense Memory.sparse Memory.score
              Memory.truthy Memory.index Memory.index_query Memory.jane
              Memory.up Memory.empty_db payload (Some "Happy to help."%string)
              H eq_refl eq_refl)
    as (text & Hreply & Hne & _).
  exists text. split; [|exact Hne].
  unfold Memory.chat_here.
  rewrite Hreply. do 3 f_equal; vm_compute; reflexivity.
Defined.


(** ** Email extraction: what comes back *)

Section EmailMore.
Import Email.

Lemma email_char_visible c :
  local_char c || domain_char c || tld_char c = true →
  c ≠ "@"%char ∧ is_space c = false.
Proof.
  destruct c as [[] [] [] [] [] [] [] []]; vm_compute; intros H;
    try discriminate H; split; (discriminate || reflexivity).
Qed.

Lemma email_chars_visible (p : ascii -> bool) t :
  (∀ c, p c = true → local_char c || domain_char c || tld_char c = true) →
  Forall (fun c => p c = true) t →
  Forall (fun c => c ≠ "@"%char ∧ is_space c = false) t.
Proof.
  intros Hp HF. eapply Forall_impl; [exact HF|].
  intros c Hc. apply email_char_visible. auto.
Qed.

(** X16.  A message without an at sign has no email.  An email that is
    found is a contiguous part of the message, has no white space in it,
    exactly one at sign and at least six characters. *)
Theorem extract_email_result message :
  ("@"%char ∉ T message → extract_email message = None)
  ∧ (∀ email, extract_email message = Some email →
       (∃ pre rest, T message = pre ++ T email ++ rest)
       ∧ Forall (fun c => is_space c = false) (T email)
       ∧ length (List.filter (fun c => bool_decide (c = "@"%char)) (T email))
         = 1%nat
       ∧ (6 <= length (T email))%nat).
Proof.
  split.
  - intros Hno. destruct (extract_email message) as [email|] eqn:E;
      [|reflexivity].
    exfalso. apply Hno. eapply extract_email_at. exact E.
  - intros email E.
    apply extract_email_first in E
      as (pre & (n & rest & Hm & _) & (l & d & tld & He & Hl & HFl & Hd & HFd
                                       & Htld & HFt)).
    split; [eauto|].
    apply (email_chars_visible local_char) in HFl;
      [|intros c ->; reflexivity].
    apply (email_chars_visible domain_char) in HFd;
      [|intros c ->; now rewrite orb_true_r].
    apply (email_chars_visible tld_char) in HFt;
      [|intros c ->; now rewrite !orb_true_r].
    assert (Hcount : ∀ t, Forall (fun c => c ≠ "@"%char ∧ is_space c = false) t →
              List.filter (fun c => bool_decide (c = "@"%char)) t = []).
    { induction 1 as [|c t [Hc _] _ IH]; [reflexivity|]. simpl.
      now rewrite bool_decide_eq_false_2. }
    rewrite He. split; [|split].
    + apply Forall_app. split; [eapply Forall_impl; [exact HFl|now intros c []]|].
      constructor; [reflexivity|].
      apply Forall_app. split; [eapply Forall_impl; [exact HFd|now intros c []]|].
      constructor; [reflexivity|].
      eapply Forall_impl; [exact HFt|now intros c []].
    + rewrite List.filter_app. cbn [List.filter].
      rewrite bool_decide_eq_true_2 by reflexivity.
      rewrite List.filter_app. cbn [List.filter].
      rewrite bool_decide_eq_false_2 by discriminate.
      rewrite !Hcount by assumption. reflexivity.
    + rewrite length_app. cbn [length]. rewrite length_app. cbn [length].
      destruct l; [congruence|]. destruct d; [congruence|]. simpl. lia.
Qed.

End EmailMore.

Lemma extract_email_result_witness :
  Email.extract_email "no address here" = None
  ∧ Email.extract_email "write to jane@acme.com now" = Some "jane@acme.com"%string
  ∧ (6 <= length (T "jane@acme.com"))%nat.
Proof.
  destruct (extract_email_result "no address here") as [Hnone _].
  destruct (extract_email_result "write to jane@acme.com now") as [_ Hsome].
  assert (E : Email.extract_email "write to jane@acme.com now"
              = Some "jane@acme.com"%string) by (vm_compute; reflexivity).
  split.
  - apply Hnone. apply (bool_decide_unpack _). vm_compute. exact I.
  - split; [exact E|]. apply (Hsome _ E).
Defined.

(** ** Purchase intent *)

Section IntentFacts.
Import Intent.

Lemma starts_with_app p t u :
  starts_with p t = true → starts_with p (t ++ u) = true.
Proof.
  revert t. induction p as [|a p IH]; intros t; [reflexivity|].
  destruct t as [|b t]; simpl; [discriminate|].
  intros H. apply andb_prop in H as [Hab Hp]. now rewrite Hab, IH.
Qed.

Lemma starts_with_refl p : starts_with p p = true.
Proof.
  induction p as [|a p IH]; [reflexivity|]. simpl.
  now rewrite bool_decide_eq_true_2, IH.
Qed.

Lemma contains_app_r needle hay post :
  contains needle hay = true → contains needle (hay ++ post) = true.
Proof.
  induction hay as [|c hay IH]; intros H.
  - destruct needle; [now destruct post|discriminate].
  - change (contains needle (c :: hay))
      with (starts_with needle (c :: hay) || contains needle hay) in H.
    change (contains needle ((c :: hay) ++ post))
      with (starts_with needle ((c :: hay) ++ post)
            || contains needle (hay ++ post)).
    apply orb_prop in H as [H|H].
    + now rewrite (starts_with_app _ _ post H).
    + rewrite (IH H). apply orb_true_r.
Qed.

Lemma contains_app_l needle pre hay :
  contains needle hay = true → contains needle (pre ++ hay) = true.
Proof.
  intros H. induction pre as [|c pre IH]; [exact H|].
  change (contains needle ((c :: pre) ++ hay))
    with (starts_with needle ((c :: pre) ++ hay)
          || contains needle (pre ++ hay)).
  rewrite IH. apply orb_true_r.
Qed.

(** X17.  [detect_purchase_intent] looks for the keywords as parts of the
    lower-cased message, not as words: a text that has a flagged text
    anywhere inside it is flagged too, a keyword is found in any mix of
    upper and lower case, and the empty message is not flagged. *)
Theorem detect_purchase_intent_substring :
  (∀ pre message post,
     detect_purchase_intent message = true →
     detect_purchase_intent (pre ++ message ++ post) = true)
  ∧ (∀ keyword message,
       keyword ∈ purchase_keywords → lower message = keyword →
       detect_purchase_intent message = true)
  ∧ detect_purchase_intent [] = false.
Proof.
  split; [|split; [|reflexivity]].
  - intros pre message post. unfold detect_purchase_intent.
    rewrite !existsb_exists. intros (keyword & Hin & Hc).
    exists keyword. split; [exact Hin|].
    unfold lower. rewrite !map_app.
    now apply contains_app_l, contains_app_r.
  - intros keyword message Hin Hlow. unfold detect_purchase_intent.
    apply existsb_exists. exists keyword.
    split; [now apply list_elem_of_In|].
    rewrite Hlow. destruct keyword; simpl; [reflexivity|].
    now rewrite bool_decide_eq_true_2, starts_with_refl.
Qed.

End IntentFacts.

Lemma detect_purchase_intent_substring_witness :
  Intent.detect_purchase_intent (T "What is the PRICE?") = true.
Proof.
  destruct detect_purchase_intent_substring as (Hinside & Hcase & _).
  apply (Hinside (T "What is the ") (T "PRICE") (T "?")).
  apply (Hcase (T "price") (T "PRICE")); [|vm_compute; reflexivity].
  apply (bool_decide_unpack _). vm_compute. exact I.
Defined.

(** ** The ingestion endpoint *)

Section EndpointFacts.
Import VectorStore Ingestion Endpoint.
Variables dense sparse : Type.
Variable index : Type.
Variable index_upsert :
  list (formatted_vector dense sparse) -> index -> index * option exn.
Variable fetch_url : string -> option text.
Variable extract_text : text -> text.
Variable get_embeddings : list text -> list dense.
Variable get_sparse_vector : text -> sparse.

(** X18.  [/api/ingest] answers every request that names a url, once the
    service is initialised, with status 200, [success = True] and the
    message of a successful ingestion, whatever [ingest_url] returned: a
    failed ingestion shows only in the [data] of the reply, and then the
    index is as it was.  A request without a body or a url, or before
    initialisation, is refused and does not reach the index. *)
Theorem ingest_data_reports_success json_data initialised idx :
  let run :=
    ingest_data dense sparse index index_upsert fetch_url extract_text
      get_embeddings get_sparse_vector json_data initialised idx in
  match json_data with
  | Some req =>
      if negb (String.eqb (i_url req) "") && initialised
      then
        let result :=
          ingest_url dense sparse index index_upsert fetch_url extract_text
            get_embeddings get_sparse_vector (i_url req) (i_client_id req)
            idx in
        run = (IngestJson 200 true "Data ingestion successful"
                 (Some (fst result)), snd result)
        ∧ (success (fst result) = false → snd run = idx)
      else
        snd run = idx
        ∧ ∃ status_code msg,
            fst run = IngestJson status_code false msg None
            ∧ (status_code = 400 ∨ status_code = 500)
  | None =>
      run = (IngestJson 400 false "Request body must contain JSON data"
               None, idx)
  end.
Proof.
  intros run. subst run. unfold ingest_data.
  destruct json_data as [req|]; [|reflexivity].
  destruct (String.eqb (i_url req) ""); simpl.
  { split; [reflexivity|]. eauto. }
  destruct initialised; simpl.
  2:{ split; [reflexivity|]. eauto. }
  pose proof (ingest_url_failure_keeps_index dense sparse index index_upsert
                fetch_url extract_text get_embeddings get_sparse_vector
                (i_url req) (i_client_id req) idx) as Hfail.
  cbv zeta in Hfail.
  destruct (ingest_url _ _ _ _ _ _ _ _ _ _ _) as [result idx'].
  split; [reflexivity|]. intros Hf. simpl in *. now apply Hfail.
Qed.

End EndpointFacts.

Lemma ingest_data_reports_success_witness :
  Endpoint.ingest_data Memory.dense Memory.sparse Memory.index
    Memory.index_upsert (fun _ => None) Memory.extract_text
    Memory.one_embedding Memory.get_sparse_vector
    (Some {| Endpoint.i_url := "https://example.com/gone";
             Endpoint.i_client_id := "tenant_a" |})
    true Memory.two_tenants
  = (Endpoint.IngestJson 200 true "Data ingestion successful"
       (Some (Ingestion.failure "Unable to fetch content"
                "https://example.com/gone")),
     Memory.two_tenants).
Proof.
  exact (proj1 (ingest_data_reports_success Memory.dense Memory.sparse
                  Memory.index Memory.index_upsert (fun _ => None)
                  Memory.extract_text Memory.one_embedding
                  Memory.get_sparse_vector
                  (Some {| Endpoint.i_url := "https://example.com/gone";
                           Endpoint.i_client_id := "tenant_a" |})
                  true Memory.two_tenants)).
Defined.

(** ** The cleaned text of a page *)

Section ExtractFacts.
Import Extract.

Lemma lstrip_head t : from_option is_space false (head (lstrip t)) = false.
Proof.
  induction t as [|c t IH]; [reflexivity|]. simpl.
  destruct (is_space c) eqn:E; [exact IH|exact E].
Qed.

Lemma lstrip_suffix t : ∃ sp, t = sp ++ lstrip t.
Proof.
  induction t as [|c t [sp IH]]; [now exists []|]. simpl.
  destruct (is_space c).
  - exists (c :: sp). simpl. now f_equal.
  - now exists [].
Qed.

Lemma lstrip_Forall (P : ascii -> Prop) t : Forall P t → Forall P (lstrip t).
Proof.
  intros H. destruct (lstrip_suffix t) as [sp E]. rewrite E in H.
  now apply Forall_app in H as [_ H].
Qed.

Lemma strip_Forall (P : ascii -> Prop) t : Forall P t → Forall P (strip t).
Proof.
  intros H. unfold strip, rstrip.
  apply Forall_rev, lstrip_Forall, Forall_rev, lstrip_Forall, H.
Qed.

(** What [strip] returns has no white space at either end. *)
Lemma strip_ends t :
  from_option is_space false (head (strip t)) = false
  ∧ from_option is_space false (head (rev (strip t))) = false.
Proof.
  unfold strip, rstrip. split.
  - pose proof (lstrip_head t) as Hh.
    destruct (lstrip_suffix (rev (lstrip t))) as [sp E].
    apply (f_equal (@rev ascii)) in E.
    rewrite rev_involutive, rev_app_distr in E.
    destruct (rev (lstrip (rev (lstrip t)))) as [|c u]; [reflexivity|].
    rewrite E in Hh. exact Hh.
  - rewrite rev_involutive. apply lstrip_head.
Qed.

Lemma splitlines_scan_Forall t :
  ∀ cur, Forall (fun c => is_linebreak c = false) cur →
  Forall (Forall (fun c => is_linebreak c = false)) (splitlines_scan cur t).
Proof.
  remember (length t) as n eqn:Hn. revert t Hn.
  induction n as [n IH] using lt_wf_ind. intros t Hn cur Hcur.
  destruct t as [|c t']; simpl.
  - destruct cur; [constructor|]. repeat constructor.
    change (Forall (fun c => is_linebreak c = false) (rev (a :: cur))).
    now apply Forall_rev.
  - destruct (is_linebreak c) eqn:E.
    + constructor; [now apply Forall_rev|].
      destruct t' as [|c' t''].
      * apply (IH 0%nat); [simpl in Hn; lia|reflexivity|constructor].
      * destruct (_ && _).
        -- apply (IH (length t'')); [simpl in Hn; lia|reflexivity|constructor].
        -- apply (IH (length (c' :: t''))); [simpl in *; lia|reflexivity|
                                            constructor].
    + apply (IH (length t')); [simpl in Hn; lia|reflexivity|].
      now constructor.
Qed.

Lemma clean_text_lines markdown_text :
  Forall clean_line
    (List.filter nonempty (map strip (splitlines markdown_text))).
Proof.
  apply List.Forall_forall. intros l Hl.
  apply filter_In in Hl as [Hin Hne].
  apply in_map_iff in Hin as (raw & <- & Hraw).
  pose proof (splitlines_scan_Forall markdown_text [] ltac:(constructor))
    as Hall.
  eapply List.Forall_forall in Hall; [|exact Hraw].
  destruct (strip_ends raw) as [Hh Hl].
  split; [|split; [|split]]; try assumption.
  - intros E. rewrite E in Hne. discriminate.
  - now apply strip_Forall.
Qed.

Lemma splitlines_scan_line line :
  Forall (fun c => is_linebreak c = false) line →
  ∀ cur rest,
  splitlines_scan cur (line ++ NL :: rest)
  = (rev cur ++ line) :: splitlines_scan [] rest.
Proof.
  induction 1 as [|c line Hc _ IH]; intros cur rest.
  - simpl. rewrite app_nil_r. now destruct rest.
  - simpl. rewrite Hc, IH. simpl. now rewrite <- app_assoc.
Qed.

Lemma splitlines_scan_last line :
  Forall (fun c => is_linebreak c = false) line →
  ∀ cur, rev cur ++ line ≠ [] →
  splitlines_scan cur line = [rev cur ++ line].
Proof.
  induction 1 as [|c line Hc _ IH]; intros cur Hne.
  - simpl. rewrite app_nil_r in *.
    destruct cur; [simpl in Hne; congruence|reflexivity].
  - simpl. rewrite Hc, IH; simpl; rewrite <- app_assoc; [reflexivity|].
    now destruct (rev cur).
Qed.

(** Splitting the joined lines gives the lines back. *)
Lemma splitlines_join lines :
  Forall clean_line lines → splitlines (py_join [NL] lines) = lines.
Proof.
  unfold splitlines.
  induction 1 as [|l lines (Hne & Hbr & _) Hrest IH]; [reflexivity|].
  destruct lines as [|l2 lines].
  - simpl. now apply splitlines_scan_last.
  - rewrite py_join_cons by discriminate.
    change ([NL] ++ py_join [NL] (l2 :: lines))
      with (NL :: py_join [NL] (l2 :: lines)).
    rewrite splitlines_scan_line by assumption. cbn [rev app].
    now rewrite IH.
Qed.

(** X19.  The text [extract_text] returns is made of the lines of the
    converted page that are not blank, each without white space at its
    ends: splitting it into lines gives those lines back, none of them is
    empty, and cleaning it again changes nothing. *)
Theorem clean_text_lines_clean markdown_text :
  let lines :=
    List.filter nonempty (map strip (splitlines markdown_text)) in
  Forall clean_line lines
  ∧ splitlines (clean_text markdown_text) = lines
  ∧ clean_text (clean_text markdown_text) = clean_text markdown_text.
Proof.
  intros lines. pose proof (clean_text_lines markdown_text) as Hclean.
  fold lines in Hclean.
  assert (Hsplit : splitlines (clean_text markdown_text) = lines)
    by now apply splitlines_join.
  split; [exact Hclean|]. split; [exact Hsplit|].
  unfold clean_text at 1. rewrite Hsplit. unfold clean_text. fold lines.
  f_equal. clear Hsplit.
  induction Hclean as [|l ls (Hne & _ & Hh & Hl) _ IH]; [reflexivity|].
  simpl. rewrite (strip_trimmed l Hh Hl).
  destruct l; [congruence|]. simpl. now rewrite IH.
Qed.

End ExtractFacts.

(** ** Cleaned text and chunks: blank lines and white space at the ends *)

Section CleanChunks.
Import Chunker Extract.

(** A separator that starts no suffix of the text splits nothing. *)
Lemma split_scan_no_match sep :
  ∀ fuel acc t, (length t <= fuel)%nat →
  (∀ pre suf, t = pre ++ suf → starts_with sep suf = false) →
  split_scan fuel sep acc t = [rev acc ++ t].
Proof.
  induction fuel as [|fuel IH]; intros acc t Hlen Hno.
  - destruct t; [|simpl in Hlen; lia]. simpl. now rewrite app_nil_r.
  - destruct t as [|c t']; [simpl; now rewrite app_nil_r|].
    cbn [split_scan]. rewrite (Hno [] (c :: t') eq_refl).
    rewrite IH; [|simpl in Hlen; lia|].
    + simpl. now rewrite <- app_assoc.
    + intros pre suf ->. apply (Hno (c :: pre) suf). reflexivity.
Qed.

Lemma no_blank_in_line l X :
  Forall (fun c => is_linebreak c = false) l →
  (∀ pre suf, X = pre ++ suf → starts_with [NL; NL] suf = false) →
  ∀ pre suf, l ++ X = pre ++ suf → starts_with [NL; NL] suf = false.
Proof.
  intros Hl HX. induction Hl as [|c l Hc _ IH]; intros pre suf E.
  - now apply (HX pre suf).
  - destruct pre as [|p pre].
    + simpl in E. subst suf. cbn [app starts_with].
      rewrite bool_decide_eq_false_2; [reflexivity|].
      intros <-. discriminate Hc.
    + injection E as _ E. now apply (IH pre suf).
Qed.

Lemma no_blank_after_break Y :
  from_option (fun c => bool_decide (NL = c)) false (head Y) = false →
  (∀ pre suf, Y = pre ++ suf → starts_with [NL; NL] suf = false) →
  ∀ pre suf, NL :: Y = pre ++ suf → starts_with [NL; NL] suf = false.
Proof.
  intros Hhead HY pre suf E. destruct pre as [|p pre].
  - simpl in E. subst suf. cbn [starts_with].
    rewrite bool_decide_eq_true_2 by reflexivity.
    destruct Y as [|y Y]; [reflexivity|]. simpl in Hhead.
    now rewrite Hhead.
  - injection E as _ E. now apply (HY pre suf).
Qed.

Lemma no_blank_in_join lines :
  Forall clean_line lines →
  ∀ pre suf, py_join [NL] lines = pre ++ suf →
  starts_with [NL; NL] suf = false.
Proof.
  induction 1 as [|l lines (Hne & Hbr & Hh & Hl) Hrest IH].
  - intros pre suf E. simpl in E. now destruct pre, suf.
  - destruct lines as [|l2 lines].
    + simpl. rewrite <- (app_nil_r l). apply no_blank_in_line; [exact Hbr|].
      intros pre suf E. now destruct pre, suf.
    + rewrite py_join_cons by discriminate.
      apply no_blank_in_line; [exact Hbr|].
      apply no_blank_after_break; [|exact IH].
      inversion Hrest as [|? ? (Hne2 & _ & Hh2 & _) _]; subst.
      destruct l2 as [|c l2]; [congruence|].
      assert (Hj : head (py_join [NL] ((c :: l2) :: lines)) = Some c)
        by (destruct lines; reflexivity).
      rewrite Hj. cbn [from_option head] in Hh2 |- *.
      apply bool_decide_eq_false_2. intros <-. discriminate Hh2.
Qed.

(** X20.  The cleaned text of a page has no blank line, so the paragraph
    separator of the chunker finds nothing to split in it: splitting it
    on two line breaks gives the text back as its single piece. *)
Theorem clean_text_has_no_paragraphs markdown_text :
  py_split (clean_text markdown_text) [NL; NL]
  = Ok [clean_text markdown_text].
Proof.
  unfold py_split. f_equal.
  apply (split_scan_no_match [NL; NL] _ [] (clean_text markdown_text));
    [lia|].
  apply no_blank_in_join, clean_text_lines.
Qed.

Lemma strip_trimmed_out t : trimmed (strip t).
Proof. apply strip_ends. Qed.

Lemma flush_trimmed final_chunks current_chunk :
  Forall trimmed final_chunks →
  Forall trimmed (flush final_chunks current_chunk).
Proof.
  intros H. unfold flush. destruct current_chunk; [exact H|].
  apply Forall_app. split; [exact H|].
  constructor; [apply strip_trimmed_out|constructor].
Qed.

Lemma greedy_chunks_trimmed chunk_size sep splits :
  Forall trimmed (greedy_chunks chunk_size sep splits).
Proof.
  unfold greedy_chunks.
  assert (H : ∀ st, Forall trimmed (fst st) →
            Forall trimmed
              (fst (fold_left (accumulate chunk_size sep) splits st))).
  { induction splits as [|s splits IH]; intros [f c] Hf; [exact Hf|].
    cbn [fold_left]. apply IH. unfold accumulate.
    destruct (_ >? chunk_size); [|exact Hf].
    now apply flush_trimmed. }
  specialize (H ([], []) ltac:(constructor)).
  destruct (fold_left _ _ _) as [f c]. now apply flush_trimmed.
Qed.

Lemma validate_Forall_chunks chunk_size (P : text -> Prop) recurse :
  ∀ final_chunks validated out,
  Forall P final_chunks →
  (∀ chunk sub, P chunk → recurse chunk = Ok sub → Forall P sub) →
  Forall P validated →
  validate chunk_size recurse final_chunks validated = Ok out →
  Forall P out.
Proof.
  induction final_chunks as [|chunk more IH]; intros validated out HF Hrec Hv;
    simpl.
  - now intros [= <-].
  - inversion HF as [|? ? Hc Hmore]; subst.
    destruct (len chunk >? chunk_size).
    + destruct (recurse chunk) as [sub|e] eqn:E; simpl; [|discriminate].
      apply IH; auto. apply Forall_app. split; [assumption|eauto].
    + apply IH; auto. apply Forall_app. split; [assumption|].
      constructor; [assumption|constructor].
Qed.

Lemma split_text_trimmed chunk_size overlap seps :
  ∀ t chunks,
  trimmed t ∨ chunk_size < len t →
  split_text chunk_size overlap (seps ++ [[]]) t = Ok chunks →
  Forall trimmed chunks.
Proof.
  induction seps as [|sep seps IH]; intros t chunks Ht; simpl.
  - destruct (Z.leb_spec (len t) chunk_size); [|discriminate].
    intros [= <-]. destruct Ht as [Ht|Ht]; [|lia].
    constructor; [exact Ht|constructor].
  - destruct (Z.leb_spec (len t) chunk_size).
    { intros [= <-]. destruct Ht as [Ht|Ht]; [|lia].
      constructor; [exact Ht|constructor]. }
    destruct (py_split t sep) as [splits|e]; simpl; [|discriminate].
    apply validate_Forall_chunks.
    + apply greedy_chunks_trimmed.
    + intros chunk sub Hc. apply IH. now left.
    + constructor.
Qed.

(** X21.  When the text is longer than [chunk_size], every chunk that
    comes back has been stripped: none starts or ends with white space. *)
Theorem recursive_chunk_text_trimmed t chunk_size overlap chunks :
  chunk_size < len t →
  recursive_chunk_text t chunk_size overlap = Ok chunks →
  Forall trimmed chunks.
Proof.
  intros Hlong.
  apply (split_text_trimmed chunk_size overlap
           [[NL; NL]; [NL]; T ". "; T " "]).
  now right.
Qed.

End CleanChunks.

Lemma recursive_chunk_text_trimmed_witness :
  recursive_chunk_text (T "  one two.   three four  ") 8 0
  = Ok [T "one two."; T "three"; T "four."]
  ∧ Forall trimmed [T "one two."; T "three"; T "four."].
Proof.
  assert (H : recursive_chunk_text (T "  one two.   three four  ") 8 0
              = Ok [T "one two."; T "three"; T "four."])
    by (vm_compute; reflexivity).
  split; [exact H|].
  apply (recursive_chunk_text_trimmed
           (T "  one two.   three four  ") 8 0); [reflexivity|exact H].
Defined.
